(** * Image usage scanner and replacer (src/plugin.tsx)

    A shallow embedding of the plugin's three routines, [fetchSize], [scan]
    and [replace], together with the part of the JavaScript semantics they
    rely on (truthiness, [||], [typeof], [String.prototype.includes],
    [parseInt], optional calls [f?.()], [try]/[catch]), and the properties
    of the Collector, the Size Resolver and the Replacer.

    Layout: JavaScript values; the host object graph and the network; the
    world and the effect monad; the three routines; then the theorems. *)

From Stdlib Require Import ZArith Lia Ascii String DecimalString.
From stdpp Require Import base list strings.

Local Open Scope string_scope.

(** ** JavaScript values *)

(** A JS number as far as this program observes it: [NaN], or an integer.
    Integers are kept exact (a double is exact up to 2^53, far above any
    byte size or count met here) and [-0] is identified with [0]. *)
Inductive number : Type :=
  | NaN
  | Num (z : Z).

(** Property and field values.  [VObj] stands for any object, array or
    function: the program only tests such values for truthiness and for
    [typeof v === 'string']. *)
Inductive value : Type :=
  | VUndefined
  | VNull
  | VBool (b : bool)
  | VNum (n : number)
  | VStr (s : string)
  | VObj.

(** ToBoolean. *)
Definition truthy (v : value) : bool :=
  match v with
  | VUndefined | VNull => false
  | VBool b => b
  | VNum NaN => false
  | VNum (Num z) => negb (z =? 0)%Z
  | VStr s => negb (s =? "")
  | VObj => true
  end.

(** [a || b]. *)
Definition js_or (a b : value) : value := if truthy a then a else b.

(** A plain object as the ordered sequence of its own enumerable
    properties ([Object.keys] order). *)
Definition obj : Type := list (string * value).

(** [o[k]]: the property's value, [undefined] when there is none. *)
Fixpoint get_prop (k : string) (o : obj) : value :=
  match o with
  | [] => VUndefined
  | (k', v) :: o' => if k' =? k then v else get_prop k o'
  end.

(** [o[k] = v]: overwrite in place, or append a new property. *)
Fixpoint set_prop (k : string) (v : value) (o : obj) : obj :=
  match o with
  | [] => [(k, v)]
  | (k', v') :: o' =>
      if k' =? k then (k', v) :: o' else (k', v') :: set_prop k v o'
  end.

(** [Object.keys] and [Object.values]. *)
Definition keys (o : obj) : list string := map fst o.
Definition values (o : obj) : list value := map snd o.

(** [{ ...o, ...p }]: the properties of [p] written over [o]. *)
Definition assign (o p : obj) : obj :=
  fold_left (fun acc kv => set_prop (fst kv) (snd kv) acc) p o.

(** [s.includes(needle)]. *)
Fixpoint includes (s needle : string) : bool :=
  String.prefix needle s ||
  match s with
  | EmptyString => false
  | String _ s' => includes s' needle
  end.

(** The host substring of line 47 and line 57. *)
Definition HOST : string := "framerusercontent.com".

(** *** parseInt *)

(** White space skipped by [parseInt] among code units below 256
    (TAB, LF, VT, FF, CR, SP, NBSP). *)
Definition is_white_space (c : ascii) : bool :=
  let n := nat_of_ascii c in
  ((9 <=? n) && (n <=? 13) || (n =? 32) || (n =? 160))%nat.

Fixpoint trim_start (s : string) : string :=
  match s with
  | String c s' => if is_white_space c then trim_start s' else s
  | EmptyString => s
  end.

(** The value of a digit character, for radixes up to 36. *)
Definition digit_value (c : ascii) : option Z :=
  let n := nat_of_ascii c in
  if ((48 <=? n) && (n <=? 57))%nat then Some (Z.of_nat (n - 48))
  else if ((97 <=? n) && (n <=? 122))%nat then Some (Z.of_nat (n - 87))
  else if ((65 <=? n) && (n <=? 90))%nat then Some (Z.of_nat (n - 55))
  else None.

(** The longest prefix of radix-[r] digits, as an integer; [acc] is [None]
    while no digit has been read. *)
Fixpoint parse_digits (r : Z) (s : string) (acc : option Z) : option Z :=
  match s with
  | EmptyString => acc
  | String c s' =>
      match digit_value c with
      | Some d =>
          if (d <? r)%Z
          then parse_digits r s' (Some (r * default 0%Z acc + d)%Z)
          else acc
      | None => acc
      end
  end.

(** [parseInt(s)] with no radix argument: leading white space, an optional
    sign, an optional [0x]/[0X] prefix selecting radix 16, then the longest
    run of digits; [NaN] when that run is empty.  The integer is the exact
    one: above 2^53 JavaScript rounds it to the nearest double, which is
    not modelled. *)
Definition parseInt (s : string) : number :=
  let s := trim_start s in
  let '(sign, s) :=
    match s with
    | String "-" r => ((-1)%Z, r)
    | String "+" r => (1%Z, r)
    | _ => (1%Z, s)
    end in
  let '(radix, s) :=
    match s with
    | String "0" (String "x" r) => (16%Z, r)
    | String "0" (String "X" r) => (16%Z, r)
    | _ => (10%Z, s)
    end in
  match parse_digits radix s None with
  | Some m => Num (sign * m)
  | None => NaN
  end.

(** ** The host object graph and the network *)

(** How a host method answers an optional call [m?.(...)]: the method is
    missing, it is there and throws (or rejects), or it is there and
    works. *)
Inductive api : Type :=
  | Absent
  | Broken
  | Working.

(** A canvas node: its property bag ([None] when [node.props] is missing or
    falsy) and its [setProps] method. *)
Record Node : Type := mkNode {
  props : option obj;
  setProps : api
}.

(** A CMS item and a CMS collection. *)
Record Item : Type := mkItem {
  item_id : string;
  fields : option obj
}.

Record Collection : Type := mkCollection {
  col_id : string;
  items : list Item
}.

(** The [framer.cms] namespace: its three methods and the collections they
    serve. *)
Record Cms : Type := mkCms {
  getCollections : api;
  getItems : api;
  patchItem : api;
  collections : list Collection
}.

(** The injected global [framer]: declared [any] on line 28, so the [cms]
    namespace itself may be missing. *)
Record Framer : Type := mkFramer {
  getNodes : api;
  canvas : list Node;
  cms : option Cms
}.

(** What a HEAD request yields: a rejection, or a response with or without
    a [content-length] header. *)
Inductive head_response : Type :=
  | HeadFails
  | HeadOk (content_length : option string).

(** What a GET request followed by [r.blob()] yields: [fetch] rejects,
    [blob()] rejects, or a body of [size] bytes. *)
Inductive get_response : Type :=
  | GetFails
  | BlobFails
  | GetBody (size : N).

Record Net : Type := mkNet {
  head : string -> head_response;
  get : string -> get_response
}.

(** ** The component state, the world and the effect monad *)

(** [type ImageUsage = { url; count; size? }].  A count is a small exact
    integer. *)
Record ImageUsage : Type := mkImageUsage {
  url : string;
  count : nat;
  size : option number
}.

(** A call issued to the host, with the node's position in the canvas or
    the identifiers passed. *)
Inductive Call : Type :=
  | CallGetNodes
  | CallSetProps (i : nat) (p : obj)
  | CallGetCollections
  | CallGetItems (cid : string)
  | CallPatchItem (cid iid : string) (fs : obj).

(** The world: the host, the network, the three React state cells of
    [Plugin], and the host calls issued so far (latest first). *)
Record World : Type := mkWorld {
  framer : Framer;
  net : Net;
  images : list ImageUsage;
  newUrl : string;
  selected : list (string * bool);
  calls : list Call
}.

Definition with_framer (f : Framer) (w : World) : World :=
  mkWorld f (net w) (images w) (newUrl w) (selected w) (calls w).
Definition with_images (l : list ImageUsage) (w : World) : World :=
  mkWorld (framer w) (net w) l (newUrl w) (selected w) (calls w).
Definition with_newUrl (s : string) (w : World) : World :=
  mkWorld (framer w) (net w) (images w) s (selected w) (calls w).
Definition with_selected (s : list (string * bool)) (w : World) : World :=
  mkWorld (framer w) (net w) (images w) (newUrl w) s (calls w).
Definition with_call (c : Call) (w : World) : World :=
  mkWorld (framer w) (net w) (images w) (newUrl w) (selected w) (c :: calls w).

(** An awaited computation either returns a value or throws; either way it
    leaves a world behind (nothing is rolled back on a throw). *)
Inductive outcome (A : Type) : Type :=
  | Returned (a : A) (w : World)
  | Thrown (w : World).
Arguments Returned {A} a w.
Arguments Thrown {A} w.

Definition M (A : Type) : Type := World -> outcome A.

Definition ret {A} (a : A) : M A := fun w => Returned a w.
Definition throw {A} : M A := fun w => Thrown w.
Definition bind {A B} (m : M A) (k : A -> M B) : M B :=
  fun w =>
    match m w with
    | Returned a w' => k a w'
    | Thrown w' => Thrown w'
    end.

(** [try { m } catch { h }]. *)
Definition try_catch {A} (m h : M A) : M A :=
  fun w =>
    match m w with
    | Returned a w' => Returned a w'
    | Thrown w' => h w'
    end.

Notation "'let*' x := m 'in' k" := (bind m (fun x => k))
  (at level 10, x name, m at level 100, k at level 200, only parsing).

(** [for (const x of l) body], the loop's local variables threaded as [s]. *)
Fixpoint for_of {A S} (l : list A) (body : A -> S -> M S) (s : S) : M S :=
  match l with
  | [] => ret s
  | x :: l' => let* s' := body x s in for_of l' body s'
  end.

(** [Promise.all(ms)]: every promise awaited, results in input order. *)
Fixpoint Promise_all {A} (ms : list (M A)) : M (list A) :=
  match ms with
  | [] => ret []
  | m :: ms' => let* a := m in let* l := Promise_all ms' in ret (a :: l)
  end.

Definition read {A} (f : World -> A) : M A := fun w => Returned (f w) w.
Definition log (c : Call) : M unit := fun w => Returned tt (with_call c w).

(** The React setters. *)
Definition setImages (l : list ImageUsage) : M unit :=
  fun w => Returned tt (with_images l w).
Definition setNewUrl (s : string) : M unit :=
  fun w => Returned tt (with_newUrl s w).
Definition setSelected (s : list (string * bool)) : M unit :=
  fun w => Returned tt (with_selected s w).

(** ** The Size Resolver: [fetchSize], lines 12-23 *)

(** [await fetch(url, { method: 'HEAD' })] then
    [res.headers.get('content-length')]. *)
Definition fetch_head (u : string) : M (option string) :=
  fun w =>
    match head (net w) u with
    | HeadFails => Thrown w
    | HeadOk h => Returned h w
    end.

(** [await fetch(url)] then [(await r.blob()).size]. *)
Definition fetch_blob_size (u : string) : M N :=
  fun w =>
    match get (net w) u with
    | GetFails | BlobFails => Thrown w
    | GetBody n => Returned n w
    end.

(** [if (size)] on a [string | null]. *)
Definition header_truthy (h : option string) : bool :=
  match h with
  | Some s => truthy (VStr s)
  | None => false
  end.

Definition fetchSize (u : string) : M (option number) :=
  try_catch
    (let* size := fetch_head u in
     if header_truthy size
     then ret (Some (parseInt (default "" size)))
     else (let* n := fetch_blob_size u in ret (Some (Num (Z.of_N n)))))
    (ret None).

(** ** Host calls *)

(** [framer.cms]: the namespace object; reading a method off a missing
    namespace throws a TypeError. *)
Definition cms_namespace : M Cms :=
  fun w =>
    match cms (framer w) with
    | Some c => Returned c w
    | None => Thrown w
    end.

Definition with_canvas (l : list Node) (f : Framer) : Framer :=
  mkFramer (getNodes f) l (cms f).
Definition with_cms (c : Cms) (f : Framer) : Framer :=
  mkFramer (getNodes f) (canvas f) (Some c).
Definition with_collections (l : list Collection) (c : Cms) : Cms :=
  mkCms (getCollections c) (getItems c) (patchItem c) l.

(** Modelled from the spec: the host's node enumeration, which is not in
    the repository.  "enumerate-nodes -> sequence of node handles, each
    exposing a property bag and a property-update operation": a handle is
    the node's position in the canvas with the node found there. *)
Definition host_getNodes (f : Framer) : list (nat * Node) :=
  imap pair (canvas f).

(** Modelled from the spec: the host's property-update operation on the
    node at position [i], which is not in the repository: the properties
    passed are written into the node's bag, the others are kept. *)
Definition host_setProps (i : nat) (p : obj) (f : Framer) : Framer :=
  with_canvas
    (alter (fun n => mkNode (Some (assign (default [] (props n)) p)) (setProps n))
       i (canvas f))
    f.

(** Modelled from the spec: the host's collection enumeration, which is not
    in the repository.  "enumerate-collections -> sequence of collection
    handles (each with an identifier)". *)
Definition host_getCollections (c : Cms) : list Collection := collections c.

(** Modelled from the spec: the host's item enumeration, which is not in
    the repository.  "enumerate-items(collection id) -> sequence of items,
    each with an identifier and a field-value mapping". *)
Definition host_getItems (cid : string) (c : Cms) : list Item :=
  match find (fun col => col_id col =? cid) (collections c) with
  | Some col => items col
  | None => []
  end.

(** Modelled from the spec: the host's item-patch operation, which is not
    in the repository.  "an item-patch operation taking a collection id,
    item id, and a replacement field mapping": the item so identified gets
    the field mapping passed. *)
Definition host_patchItem (cid iid : string) (fs : obj) (c : Cms) : Cms :=
  with_collections
    (map (fun col =>
            if col_id col =? cid
            then mkCollection (col_id col)
                   (map (fun it =>
                           if item_id it =? iid
                           then mkItem (item_id it) (Some fs)
                           else it)
                      (items col))
            else col)
       (collections c))
    c.

(** [(await framer.getNodes?.()) || []]. *)
Definition call_getNodes : M (list (nat * Node)) :=
  fun w =>
    match getNodes (framer w) with
    | Absent => Returned [] w
    | Broken => Thrown (with_call CallGetNodes w)
    | Working => Returned (host_getNodes (framer w)) (with_call CallGetNodes w)
    end.

(** [(await framer.cms.getCollections?.()) || []]. *)
Definition call_getCollections : M (list Collection) :=
  let* c := cms_namespace in
  match getCollections c with
  | Absent => ret []
  | Broken => let* _ := log CallGetCollections in throw
  | Working => let* _ := log CallGetCollections in ret (host_getCollections c)
  end.

(** [(await framer.cms.getItems?.(col.id)) || []]. *)
Definition call_getItems (cid : string) : M (list Item) :=
  let* c := cms_namespace in
  match getItems c with
  | Absent => ret []
  | Broken => let* _ := log (CallGetItems cid) in throw
  | Working => let* _ := log (CallGetItems cid) in ret (host_getItems cid c)
  end.

(** [await node.setProps?.(p)], on the handle [h]. *)
Definition call_setProps (h : nat * Node) (p : obj) : M unit :=
  match setProps (snd h) with
  | Absent => ret tt
  | Broken => let* _ := log (CallSetProps (fst h) p) in throw
  | Working =>
      let* _ := log (CallSetProps (fst h) p) in
      fun w => Returned tt (with_framer (host_setProps (fst h) p (framer w)) w)
  end.

(** [await framer.cms.patchItem?.(cid, iid, { fields })]. *)
Definition call_patchItem (cid iid : string) (fs : obj) : M unit :=
  let* c := cms_namespace in
  match patchItem c with
  | Absent => ret tt
  | Broken => let* _ := log (CallPatchItem cid iid fs) in throw
  | Working =>
      let* _ := log (CallPatchItem cid iid fs) in
      fun w =>
        Returned tt (with_framer (with_cms (host_patchItem cid iid fs c) (framer w)) w)
  end.

(** ** The Collector and the scan: [scan], lines 40-72 *)

(** [usages[u]] on the [Record<string, number>] of line 41. *)
Fixpoint usages_get (u : string) (usages : list (string * nat)) : option nat :=
  match usages with
  | [] => None
  | (k, n) :: rest => if k =? u then Some n else usages_get u rest
  end.

(** [usages[u] = n]: in place for a known key, appended for a new one. *)
Fixpoint usages_set (u : string) (n : nat) (usages : list (string * nat))
  : list (string * nat) :=
  match usages with
  | [] => [(u, n)]
  | (k, m) :: rest =>
      if k =? u then (k, n) :: rest else (k, m) :: usages_set u n rest
  end.

(** [x || 0] on a count that may be [undefined]. *)
Definition or_zero (x : option nat) : nat :=
  match x with
  | Some (S n) => S n
  | Some O | None => 0
  end.

(** [usages[u] = (usages[u] || 0) + 1]. *)
Definition bump (u : string) (usages : list (string * nat)) : list (string * nat) :=
  usages_set u (or_zero (usages_get u usages) + 1) usages.

(** [typeof v === 'string' && v.includes('framerusercontent.com')]: the
    string when the test passes. *)
Definition qualifies (v : value) : option string :=
  match v with
  | VStr s => if includes s HOST then Some s else None
  | _ => None
  end.

(** [const props = node.props || {}; const url = props.image || props.src]. *)
Definition node_url (n : Node) : value :=
  let p := default [] (props n) in
  js_or (get_prop "image" p) (get_prop "src" p).

(** The body of the loop of lines 44-50. *)
Definition scan_node (usages : list (string * nat)) (h : nat * Node)
  : list (string * nat) :=
  match qualifies (node_url (snd h)) with
  | Some u => bump u usages
  | None => usages
  end.

(** The body of the loop of lines 56-60, on one field value. *)
Definition scan_value (usages : list (string * nat)) (val : value)
  : list (string * nat) :=
  match qualifies val with
  | Some u => bump u usages
  | None => usages
  end.

(** Lines 55-61, for one item: [Object.values(item.fields || {})]. *)
Definition scan_item (usages : list (string * nat)) (it : Item)
  : list (string * nat) :=
  fold_left scan_value (values (default [] (fields it))) usages.

(** Lines 64-69, for one entry of [Object.entries(usages)]. *)
Definition resolve_entry (e : string * nat) : M ImageUsage :=
  let* size := fetchSize (fst e) in
  ret (mkImageUsage (fst e) (snd e) size).

(** The body of the loop of lines 53-62. *)
Definition scan_collection (col : Collection) (usages : list (string * nat))
  : M (list (string * nat)) :=
  let* items := call_getItems (col_id col) in
  ret (fold_left scan_item items usages).

Definition scan : M unit :=
  let* nodes := call_getNodes in
  let usages := fold_left scan_node nodes [] in
  let* collections := call_getCollections in
  let* usages := for_of collections scan_collection usages in
  let* list := Promise_all (map resolve_entry usages) in
  let* _ := setImages list in
  setSelected [].

(** ** The Replacer: [replace], lines 79-112 *)

(** [selected[k]] on the [Record<string, boolean>] of line 33. *)
Fixpoint selected_get (k : string) (sel : list (string * bool)) : bool :=
  match sel with
  | [] => false
  | (k', b) :: rest => if k' =? k then b else selected_get k rest
  end.

(** Line 80: [Object.keys(selected).filter(k => selected[k])]. *)
Definition targets_of (sel : list (string * bool)) : list string :=
  filter (fun k => selected_get k sel = true) (map fst sel).

(** [typeof v === 'string' && targets.includes(v)]. *)
Definition is_target (targets : list string) (v : value) : bool :=
  match v with
  | VStr s => existsb (fun t => t =? s) targets
  | _ => false
  end.

(** Lines 96-104: the copy of the fields with every targeted value
    overwritten, and the [changed] flag. *)
Definition replace_fields (targets : list string) (new : string) (fs : obj)
  : obj * bool :=
  fold_left
    (fun st key =>
       if is_target targets (get_prop key (fst st))
       then (set_prop key (VStr new) (fst st), true)
       else st)
    (keys fs) (fs, false).

(** Line 88: [{ image: newUrl, src: newUrl }]. *)
Definition both_slots (new : string) : obj :=
  [("image", VStr new); ("src", VStr new)].

(** The body of the loop of lines 84-90. *)
Definition replace_node (targets : list string) (new : string)
    (h : nat * Node) (_ : unit) : M unit :=
  if is_target targets (node_url (snd h))
  then call_setProps h (both_slots new)
  else ret tt.

(** The body of the loop of lines 95-108. *)
Definition replace_item (targets : list string) (new : string) (cid : string)
    (it : Item) (_ : unit) : M unit :=
  let st := replace_fields targets new (default [] (fields it)) in
  if snd st
  then call_patchItem cid (item_id it) (fst st)
  else ret tt.

(** The body of the loop of lines 93-109. *)
Definition replace_collection (targets : list string) (new : string)
    (col : Collection) (_ : unit) : M unit :=
  let* items := call_getItems (col_id col) in
  for_of items (replace_item targets new (col_id col)) tt.

(** Lines 82-109: the two update loops. *)
Definition replace_updates (targets : list string) (new : string) : M unit :=
  let* nodes := call_getNodes in
  let* _ := for_of nodes (replace_node targets new) tt in
  let* collections := call_getCollections in
  for_of collections (replace_collection targets new) tt.

(** [selected] and [newUrl] are the values of the render that created the
    closure: they are read once, on entry. *)
Definition replace : M unit :=
  let* sel := read selected in
  let* new := read newUrl in
  let targets := targets_of sel in
  if negb (truthy (VStr new)) || (length targets =? 0)%nat
  then ret tt
  else
    let* _ := replace_updates targets new in
    let* _ := scan in
    setNewUrl "".

(** The checkbox handler of line 129:
    [setSelected(s => ({ ...s, [url]: v }))]. *)
Fixpoint selected_set (k : string) (v : bool) (sel : list (string * bool))
  : list (string * bool) :=
  match sel with
  | [] => [(k, v)]
  | (k', b) :: rest =>
      if k' =? k then (k', v) :: rest else (k', b) :: selected_set k v rest
  end.

Definition onToggle (u : string) (v : bool) : M unit :=
  fun w => Returned tt (with_selected (selected_set u v (selected w)) w).

(** ** Observations and sample data used by the statements *)

(** The world a computation leaves behind, whether it returned or threw. *)
Definition world_of {A} (o : outcome A) : World :=
  match o with
  | Returned _ w => w
  | Thrown w => w
  end.

(** The size read off the two responses, as a decision table: the value
    [fetchSize] is shown to return. *)
Definition body_size (g : get_response) : option number :=
  match g with
  | GetBody n => Some (Num (Z.of_N n))
  | GetFails | BlobFails => None
  end.

Definition size_table (n : Net) (u : string) : option number :=
  match head n u with
  | HeadFails => None
  | HeadOk None => body_size (get n u)
  | HeadOk (Some h) => if h =? "" then body_size (get n u) else Some (parseInt h)
  end.


Definition url_a : string := "https://framerusercontent.com/images/a.png".
Definition url_b : string := "https://framerusercontent.com/images/b.png".
Definition url_new : string := "https://cdn.example.com/new.png".

(** A network whose HEAD answers carry a malformed [content-length] and
    whose bodies are 10 bytes long. *)
Definition net_malformed : Net :=
  mkNet (fun _ => HeadOk (Some "abc")) (fun _ => GetBody 10).

(** A network that declares 1024 bytes for [url_a] and offers neither a
    header nor a body for anything else. *)
Definition net_sample : Net :=
  mkNet (fun u => if u =? url_a then HeadOk (Some "1024") else HeadOk None)
        (fun _ => GetFails).



(** Occurrences of [u] as the Collector defines them: the nodes whose
    resolved [image]/[src] value qualifies and is [u], and the item fields
    whose value qualifies and is [u]. *)
Definition is_occurrence (u : string) (v : value) : bool :=
  match qualifies v with
  | Some s => s =? u
  | None => false
  end.

Definition node_occurrences (u : string) (nodes : list Node) : nat :=
  length (filter (fun n => is_occurrence u (node_url n) = true) nodes).

Definition item_occurrences (u : string) (it : Item) : nat :=
  length (filter (fun v => is_occurrence u v = true) (values (default [] (fields it)))).

Definition field_occurrences (u : string) (its : list Item) : nat :=
  sum_list (map (item_occurrences u) its).

(** The two sources as the scan receives them: what the enumeration calls
    return, nothing for a missing method. *)
Definition scanned_nodes (f : Framer) : list Node :=
  match getNodes f with
  | Working => canvas f
  | Absent | Broken => []
  end.

Definition scanned_items (f : Framer) : list Item :=
  match cms f with
  | Some c =>
      match getCollections c, getItems c with
      | Working, Working =>
          concat (map (fun col => host_getItems (col_id col) c) (collections c))
      | _, _ => []
      end
  | None => []
  end.

(** The count a record list reports for [u]; no row means none. *)
Definition reported_count (u : string) (l : list ImageUsage) : nat :=
  match find (fun r => url r =? u) l with
  | Some r => count r
  | None => 0
  end.

(** Two nodes and one item field referencing [url_a]; a third node and a
    second field reference [url_b]. *)
Definition sample_canvas : list Node :=
  [ mkNode (Some [("image", VStr url_a)]) Working;
    mkNode (Some [("src", VStr url_a)]) Working;
    mkNode (Some [("image", VStr url_b); ("src", VStr url_a)]) Working;
    mkNode None Working ].

Definition sample_collections : list Collection :=
  [ mkCollection "posts"
      [ mkItem "p1" (Some [("title", VStr "Hello"); ("cover", VStr url_a)]);
        mkItem "p2" (Some [("cover", VStr url_b); ("views", VNum (Num 7))]) ];
    mkCollection "authors" [ mkItem "a1" None ] ].

Definition sample_host : Framer :=
  mkFramer Working sample_canvas
    (Some (mkCms Working Working Working sample_collections)).

(** The plugin as mounted on the sample project, before its first scan,
    with a stale selection left over. *)
Definition world_sample : World :=
  mkWorld sample_host net_sample [] "" [("stale", true)] [].

(** A node whose primary slot holds the empty string. *)
Definition node_empty_image : Node :=
  mkNode (Some [("image", VStr ""); ("src", VStr url_a)]) Working.

(** The priority rule as the specification words it: a string in the
    primary slot is the node's URL. *)
Definition primary_string_wins (n : Node) : Prop :=
  forall s, get_prop "image" (default [] (props n)) = VStr s -> node_url n = VStr s.

(** The world [w] with the host calls [evs] issued on top of its log. *)
Definition add_calls (evs : list Call) (w : World) : World :=
  mkWorld (framer w) (net w) (images w) (newUrl w) (selected w) (evs ++ calls w).

(** An enumeration call, as opposed to a mutation call. *)
Definition is_enumeration (c : Call) : Prop :=
  match c with
  | CallGetNodes | CallGetCollections | CallGetItems _ => True
  | CallSetProps _ _ | CallPatchItem _ _ _ => False
  end.

(** The usage table the Collector builds from the two sources. *)
Definition usages_of (f : Framer) : list (string * nat) :=
  fold_left scan_item (scanned_items f)
    (fold_left scan_node (imap pair (scanned_nodes f)) []).

(** The records built from a usage table, sizes read off the network. *)
Definition records (n : Net) (usages : list (string * nat)) : list ImageUsage :=
  map (fun e => mkImageUsage (fst e) (snd e) (size_table n (fst e))) usages.

(** The world a completed scan leaves: the host and the network as they
    were, the records of the usage table, an empty selection, and some
    enumeration calls on top of the log. *)
Definition scanned (evs : list Call) (w : World) : World :=
  mkWorld (framer w) (net w) (records (net w) (usages_of (framer w)))
    (newUrl w) [] (evs ++ calls w)%list.

(** The hosts on which a scan runs to completion: the [cms] namespace is
    there, and no enumeration method that gets called throws. *)
Definition scan_completes (f : Framer) : bool :=
  match getNodes f, cms f with
  | Broken, _ | _, None => false
  | _, Some c =>
      match getCollections c, getItems c, collections c with
      | Broken, _, _ => false
      | Working, Broken, _ :: _ => false
      | _, _, _ => true
      end
  end.

(** The number a usage table holds for [u]. *)
Definition tally (u : string) (us : list (string * nat)) : nat :=
  default 0 (usages_get u us).

(** The same host with every missing enumeration method replaced by a
    working one that serves an empty sequence. *)
Definition as_empty_sources (f : Framer) : Framer :=
  mkFramer Working (scanned_nodes f)
    (match cms f with
     | Some c =>
         Some (mkCms Working Working (patchItem c)
                 (match getCollections c, getItems c with
                  | Working, Working => collections c
                  | Working, _ =>
                      map (fun col => mkCollection (col_id col) []) (collections c)
                  | _, _ => []
                  end))
     | None => None
     end).

(** A host offering no API at all: no [getNodes], no [cms] namespace. *)
Definition host_without_apis : Framer := mkFramer Absent [] None.

Definition world_without_apis : World :=
  mkWorld host_without_apis net_sample [] "" [] [].

(** A host whose canvas is enumerable while the [cms] namespace lacks both
    of its enumeration methods. *)
Definition host_nodes_only : Framer :=
  mkFramer Working sample_canvas
    (Some (mkCms Absent Absent Absent sample_collections)).

Definition world_nodes_only : World :=
  mkWorld host_nodes_only net_sample [] "" [] [].

(** The sample project scanned, then a replacement URL typed while nothing
    is ticked. *)
Definition world_typed_only : World :=
  world_of (setNewUrl url_new (world_of (scan world_sample))).


Definition is_setProps (c : Call) : Prop :=
  match c with
  | CallSetProps _ _ => True
  | _ => False
  end.


(** A computation that only logs calls satisfying [P], whether it returns
    or throws. *)
Definition logs_only (P : Call -> Prop) {A} (m : M A) : Prop :=
  forall w, exists evs, Forall P evs /\ calls (world_of (m w)) = (evs ++ calls w)%list.

(** The sample project scanned, [url_a] ticked, [url_new] typed. *)
Definition world_selected : World :=
  world_of (setNewUrl url_new
    (world_of (onToggle url_a true (world_of (scan world_sample))))).

(** A URL ticked that the project no longer references, [url_new] typed. *)
Definition world_gone : World :=
  mkWorld sample_host net_sample [] url_new
    [("https://framerusercontent.com/images/gone.png", true)] [].

(** What the two update loops make of a value, a node, an item, a
    collection and the whole host, as pure functions. *)
Definition rewrite_value (targets : list string) (new : string) (v : value) : value :=
  if is_target targets v then VStr new else v.

Definition new_node (targets : list string) (new : string) (n : Node) : Node :=
  if is_target targets (node_url n)
  then mkNode (Some (assign (default [] (props n)) (both_slots new))) (setProps n)
  else n.

Definition new_item (targets : list string) (new : string) (it : Item) : Item :=
  let st := replace_fields targets new (default [] (fields it)) in
  if snd st then mkItem (item_id it) (Some (fst st)) else it.

Definition new_collection (targets : list string) (new : string) (col : Collection)
  : Collection :=
  mkCollection (col_id col) (map (new_item targets new) (items col)).

Definition replaced_host (targets : list string) (new : string) (f : Framer) : Framer :=
  mkFramer (getNodes f) (map (new_node targets new) (canvas f))
    (match cms f with
     | Some c => Some (with_collections
                         (map (new_collection targets new) (collections c)) c)
     | None => None
     end).

(** A host on which a replacement can run its course: every method is
    there and works, identifiers identify (no two collections share an id,
    no two items of a collection do), and a field mapping has each key
    once, as a JS object does. *)
Definition item_ready (it : Item) : Prop := NoDup (keys (default [] (fields it))).

Definition collection_ready (col : Collection) : Prop :=
  NoDup (map item_id (items col)) /\ Forall item_ready (items col).

Definition cms_ready (c : Cms) : Prop :=
  getCollections c = Working /\ getItems c = Working /\ patchItem c = Working /\
  NoDup (map col_id (collections c)) /\ Forall collection_ready (collections c).

Definition host_ready (f : Framer) : Prop :=
  getNodes f = Working /\
  Forall (fun n => setProps n = Working) (canvas f) /\
  exists c, cms f = Some c /\ cms_ready c.

(** The sample project scanned, [url_a] ticked, and [url_a] itself typed
    as the replacement. *)
Definition world_same_url : World :=
  world_of (setNewUrl url_a
    (world_of (onToggle url_a true (world_of (scan world_sample))))).




(** ** The rest of the component: state cells, handlers, rendering *)

(** The three React state cells of lines 31-33. *)
Definition ui (w : World) : list ImageUsage * string * list (string * bool) :=
  (images w, newUrl w, selected w).

(** The component as mounted (lines 31-33): no record, an empty input, an
    empty selection, no call issued yet. *)
Definition mounted (f : Framer) (n : Net) : World := mkWorld f n [] "" [] [].

(** Line 128: [checked={!!selected[url]}]. *)
Definition checked (u : string) (w : World) : bool := selected_get u (selected w).

(** Line 149:
    [disabled={!newUrl || !Object.values(selected).some(Boolean)}]. *)
Definition replace_disabled (w : World) : bool :=
  negb (truthy (VStr (newUrl w)))
  || negb (existsb (fun b : bool => b) (map snd (selected w))).

(** A computation that leaves the observation [proj] of the world as it
    was, whether it returns or throws. *)
Definition keeps {X} (proj : World -> X) {A} (m : M A) : Prop :=
  forall w, proj (world_of (m w)) = proj w.

(** A usage table as the Collector keeps it: each key once, every key
    containing the host substring, every count at least one. *)
Definition usages_ok (us : list (string * nat)) : Prop :=
  NoDup (map fst us) /\
  Forall (fun e => includes (fst e) HOST = true /\ 1 <= snd e) us.

(** The two phases of [scan]: lines 41-62 collect the usage table, lines
    63-71 resolve the sizes and publish the result. *)
Definition scan_collect : M (list (string * nat)) :=
  let* nodes := call_getNodes in
  let usages := fold_left scan_node nodes [] in
  let* collections := call_getCollections in
  for_of collections scan_collection usages.

Definition scan_publish (usages : list (string * nat)) : M unit :=
  let* list := Promise_all (map resolve_entry usages) in
  let* _ := setImages list in
  setSelected [].

(** A host whose node enumeration throws, under a plugin holding records,
    a typed URL and a ticked row. *)
Definition world_broken_nodes : World :=
  mkWorld (mkFramer Broken sample_canvas
             (Some (mkCms Working Working Working sample_collections)))
    net_sample [mkImageUsage url_a 3 (Some (Num 1024))] url_new [(url_a, true)] [].

(** The sample project with the [setProps] of its second node throwing,
    [url_a] ticked and [url_new] typed. *)
Definition world_broken_setProps : World :=
  mkWorld
    (mkFramer Working
       [ mkNode (Some [("image", VStr url_a)]) Working;
         mkNode (Some [("src", VStr url_a)]) Broken;
         mkNode (Some [("image", VStr url_a)]) Working ]
       (Some (mkCms Working Working Working sample_collections)))
    net_sample [mkImageUsage url_a 4 (Some (Num 1024))] url_new [(url_a, true)] [].

(** What can happen to the mounted component, one handler run at a time:
    the scan of the mount effect or of the rescan button (lines 115-117 and
    153), a checkbox (line 129), typing (line 145), the replace button
    (line 148), and, between handler runs, any change of the project or of
    the network made from outside. *)
Inductive event : Type :=
  | Rescan
  | Toggle (u : string) (v : bool)
  | Typing (s : string)
  | Replace
  | HostChange (f : Framer)
  | NetChange (n : Net).

(** A checkbox exists only on a listed row (lines 125-130), and a disabled
    button does not fire (line 149). *)
Definition enabled (e : event) (w : World) : Prop :=
  match e with
  | Toggle u _ => In u (map url (images w))
  | Replace => replace_disabled w = false
  | Rescan | Typing _ | HostChange _ | NetChange _ => True
  end.

Definition handle (e : event) : M unit :=
  match e with
  | Rescan => scan
  | Toggle u v => onToggle u v
  | Typing s => setNewUrl s
  | Replace => replace
  | HostChange f => fun w => Returned tt (with_framer f w)
  | NetChange n =>
      fun w => Returned tt (mkWorld (framer w) n (images w) (newUrl w) (selected w) (calls w))
  end.

(** The states the component can be in; a handler that throws leaves the
    world it reached. *)
Inductive reachable : World -> Prop :=
  | reach_mounted f n : reachable (mounted f n)
  | reach_step w e : reachable w -> enabled e w -> reachable (world_of (handle e w)).

(** What holds of the state cells in every reachable state. *)
Definition ui_ok (w : World) : Prop :=
  NoDup (map fst (selected w)) /\
  (forall u, In u (map fst (selected w)) -> In u (map url (images w))) /\
  (forall u, In u (map url (images w)) -> includes u HOST = true).

(** The sample project mounted, scanned, [url_a] ticked, [url_new] typed,
    all through the handlers. *)
Definition world_ui_scanned : World :=
  world_of (handle Rescan (mounted sample_host net_sample)).
Definition world_ui_ticked : World :=
  world_of (handle (Toggle url_a true) world_ui_scanned).
Definition world_ui_typed : World :=
  world_of (handle (Typing url_new) world_ui_ticked).

(** The sample project on a read-only host: no node has [setProps], the
    [cms] namespace has no [patchItem]; [url_a] ticked, [url_new] typed. *)
Definition world_read_only : World :=
  mkWorld
    (mkFramer Working
       [ mkNode (Some [("image", VStr url_a)]) Absent;
         mkNode (Some [("src", VStr url_b)]) Absent ]
       (Some (mkCms Working Working Absent sample_collections)))
    net_sample [] url_new [(url_a, true)] [].

(** Whether the value [v] is one occurrence of [u], as a number. *)
Definition occ (u : string) (v : value) : nat :=
  if is_occurrence u v then 1 else 0.

(** The values a scan looks at, in the order it meets them: the resolved
    value of each node, then each field value of each item. *)
Definition sighted (f : Framer) : list value :=
  map node_url (scanned_nodes f)
  ++ concat (map (fun it => values (default [] (fields it))) (scanned_items f)).

(** The sample project mounted and scanned, [url_a] ticked, and [url_b],
    already in use, typed as the replacement. *)
Definition world_ui_merge : World :=
  world_of (handle (Typing url_b) world_ui_ticked).

(** The field mappings passed to [patchItem] for the item [iid] of the
    collection [cid], among the calls [cs]. *)
Definition patch_payloads (cid iid : string) (cs : list Call) : list obj :=
  flat_map
    (fun c =>
       match c with
       | CallPatchItem cid' iid' fs =>
           if (cid' =? cid) && (iid' =? iid) then [fs] else []
       | _ => []
       end)
    cs.

Definition is_patchItem (c : Call) : Prop :=
  match c with
  | CallPatchItem _ _ _ => True
  | _ => False
  end.

(** The call the loop of lines 95-108 issues for one item where
    [patchItem] is there, and the calls of lines 93-109 for one
    collection where [getItems] works and serves its items. *)
Definition item_call (targets : list string) (new : string) (cid : string)
    (it : Item) : list Call :=
  let st := replace_fields targets new (default [] (fields it)) in
  if snd st then [CallPatchItem cid (item_id it) (fst st)] else [].

Definition collection_calls (targets : list string) (new : string)
    (col : Collection) : list Call :=
  CallGetItems (col_id col)
  :: flat_map (item_call targets new (col_id col)) (items col).

(** The URLs of a list in order of first appearance. *)
Definition first_seen (l : list string) : list string :=
  fold_left (fun acc u => if decide (u ∈ acc) then acc else acc ++ [u])%list l [].

(** ** Rendering: lines 125-139 *)

(** An integer in decimal, and the two digits of a number below 100. *)
Definition decimal (n : Z) : string := NilZero.string_of_uint (N.to_uint (Z.to_N n)).

Definition two_digits (n : Z) : string :=
  (if (n <? 10)%Z then "0" else "") ++ decimal n.

(** [(size / 1024).toFixed(2)] for an integer [size].  Dividing by 1024 is
    exact, and [toFixed(2)] takes the nearest hundredth, the larger one on
    a tie, of the absolute value, with the sign in front.  From 1e21 on
    JavaScript switches to exponent notation, which is not modelled. *)
Definition toFixed2_kb (size : Z) : string :=
  let n := ((Z.abs size * 100 + 512) / 1024)%Z in
  (if (size <? 0)%Z then "-" else "")
  ++ decimal (n / 100) ++ "." ++ two_digits (n mod 100).

(** The placeholder of line 135, an em dash. *)
Definition PLACEHOLDER : string := "—".

(** Line 135: [size ? `${(size / 1024).toFixed(2)} KB` : '—']. *)
Definition size_label (size : option number) : string :=
  match size with
  | Some n =>
      if truthy (VNum n)
      then match n with
           | Num z => toFixed2_kb z ++ " KB"
           | NaN => PLACEHOLDER
           end
      else PLACEHOLDER
  | None => PLACEHOLDER
  end.

(** One row of the list: its React key, its checkbox, and the three texts
    (the URL, the count after [Usos: ], the size after [Tamaño: ]). *)
Record Row : Type := mkRow {
  row_key : string;
  row_checked : bool;
  row_url : string;
  row_uses : string;
  row_size : string
}.

Definition render_row (w : World) (r : ImageUsage) : Row :=
  mkRow (url r) (checked (url r) w) (url r)
    (decimal (Z.of_nat (count r))) (size_label (size r)).

Definition render_rows (w : World) : list Row := map (render_row w) (images w).

(** The sample project behind a network whose HEAD answers all carry the
    malformed header [abc]. *)
Definition world_sample_malformed : World :=
  mkWorld sample_host net_malformed [] "" [] [].

(** A project on a host without mutation methods (no node has [setProps],
    the namespace has no [patchItem]), mounted and scanned, [url_a] ticked
    and [url_new] typed, all through the handlers. *)
Definition read_only_host : Framer :=
  mkFramer Working
    [ mkNode (Some [("image", VStr url_a)]) Absent;
      mkNode (Some [("src", VStr url_b)]) Absent ]
    (Some (mkCms Working Working Absent sample_collections)).

Definition world_read_only_ticked : World :=
  world_of (handle (Typing url_new)
    (world_of (handle (Toggle url_a true)
      (world_of (handle Rescan (mounted read_only_host net_sample)))))).

(** * Properties *)

Local Open Scope list_scope.

(** ** The Size Resolver *)

Lemma parseInt_empty : parseInt "" = NaN.
Proof. reflexivity. Qed.

(** A header that parses to an integer is not the empty string, so the
    integer is what the table holds. *)
Lemma size_table_parseable n u h z :
  head n u = HeadOk (Some h) -> parseInt h = Num z ->
  size_table n u = Some (Num z).
Proof.
  intros Hh Hp. unfold size_table. rewrite Hh.
  destruct (String.eqb_spec h "") as [->|_]; [discriminate Hp | now rewrite Hp].
Qed.

Lemma fetchSize_run (u : string) (w : World) :
  fetchSize u w = Returned (size_table (net w) u) w.
Proof.
  unfold fetchSize, try_catch, bind, fetch_head, fetch_blob_size, size_table, ret.
  destruct (head (net w) u) as [|[h|]]; simpl; [reflexivity| |].
  - destruct (String.eqb_spec h "") as [->|Hne]; simpl.
    + destruct (get (net w) u); reflexivity.
    + reflexivity.
  - destruct (get (net w) u); reflexivity.
Qed.



(** ** Usage tables *)

Lemma or_zero_default (x : option nat) : or_zero x = default 0 x.
Proof. destruct x as [[|n]|]; reflexivity. Qed.

Lemma usages_get_set_eq u n us : usages_get u (usages_set u n us) = Some n.
Proof.
  induction us as [|[k m] us IH]; simpl.
  - now rewrite String.eqb_refl.
  - destruct (k =? u) eqn:E; simpl; rewrite E; auto.
Qed.

Lemma usages_get_set_ne u v n us :
  u <> v -> usages_get v (usages_set u n us) = usages_get v us.
Proof.
  intros Hne. induction us as [|[k m] us IH]; simpl.
  - destruct (String.eqb_spec u v); [contradiction | reflexivity].
  - destruct (String.eqb_spec k u) as [->|Hk]; simpl.
    + destruct (String.eqb_spec u v); [contradiction | reflexivity].
    + destruct (k =? v); auto.
Qed.

Lemma tally_bump_eq u us : tally u (bump u us) = tally u us + 1.
Proof. unfold tally, bump. now rewrite usages_get_set_eq, or_zero_default. Qed.

Lemma tally_bump_ne u v us : u <> v -> tally v (bump u us) = tally v us.
Proof. intros H. unfold tally, bump. now rewrite usages_get_set_ne. Qed.

Lemma tally_scan_value u us v :
  tally u (scan_value us v) = tally u us + (if is_occurrence u v then 1 else 0).
Proof.
  unfold scan_value, is_occurrence. destruct (qualifies v) as [s|]; [|lia].
  destruct (String.eqb_spec s u) as [->|Hne].
  - apply tally_bump_eq.
  - rewrite tally_bump_ne by assumption. lia.
Qed.

Lemma length_filter_cons {A} (P : A -> Prop) `{!forall x, Decision (P x)} x l :
  length (filter P (x :: l)) = (if decide (P x) then 1 else 0) + length (filter P l).
Proof. rewrite filter_cons. destruct (decide (P x)); reflexivity. Qed.

Lemma bool_decide_if (b : bool) : (if decide (b = true) then 1 else 0) = (if b then 1 else 0).
Proof. destruct b; reflexivity. Qed.

Lemma tally_scan_values u vs us :
  tally u (fold_left scan_value vs us)
  = tally u us + length (filter (fun v => is_occurrence u v = true) vs).
Proof.
  revert us. induction vs as [|v vs IH]; intros us; simpl; [lia|].
  rewrite IH, tally_scan_value, length_filter_cons, bool_decide_if. lia.
Qed.

Lemma tally_scan_item u us it :
  tally u (scan_item us it) = tally u us + item_occurrences u it.
Proof. apply tally_scan_values. Qed.

Lemma tally_scan_items u its us :
  tally u (fold_left scan_item its us) = tally u us + field_occurrences u its.
Proof.
  revert us. induction its as [|it its IH]; intros us; simpl.
  - unfold field_occurrences. simpl. lia.
  - rewrite IH, tally_scan_item. unfold field_occurrences. simpl. lia.
Qed.

Lemma tally_scan_nodes u k nodes us :
  tally u (fold_left scan_node (imap (fun i => pair (k + i)) nodes) us)
  = tally u us + node_occurrences u nodes.
Proof.
  revert k us. induction nodes as [|n nodes IH]; intros k us; simpl.
  - unfold node_occurrences. simpl. lia.
  - erewrite imap_ext; [rewrite (IH (S k))|intros; simpl; f_equal; lia].
    change (scan_node us (k + 0, n)) with (scan_value us (node_url n)).
    rewrite tally_scan_value. unfold node_occurrences.
    rewrite length_filter_cons, bool_decide_if. lia.
Qed.

Lemma tally_usages_of u f :
  tally u (usages_of f)
  = node_occurrences u (scanned_nodes f) + field_occurrences u (scanned_items f).
Proof.
  unfold usages_of. rewrite tally_scan_items.
  rewrite (tally_scan_nodes u 0). reflexivity.
Qed.

Lemma reported_count_records u n us :
  reported_count u (records n us) = tally u us.
Proof.
  unfold reported_count, tally, records.
  induction us as [|[k m] us IH]; simpl; [reflexivity|].
  destruct (k =? u); [reflexivity | exact IH].
Qed.

(** ** What a scan does *)

(** One step of symbolic execution: unfold the monad and the host calls,
    compute, and use what is known of the methods' modes. *)
Ltac run_step :=
  first
    [ progress unfold bind, ret, throw, log, read, setImages, setSelected,
        setNewUrl, cms_namespace, call_getNodes, call_getCollections,
        call_getItems, call_setProps, call_patchItem
    | progress simpl
    | match goal with
      | H : ?x = _ |- context [match ?x with _ => _ end] => rewrite H
      end ].
Ltac run := repeat run_step.

(** Name the calls issued between two logs. *)
Ltac calls_witness :=
  lazymatch goal with
  | |- ?l = ?e ++ ?l => unify e (@nil Call); reflexivity
  | |- ?a :: ?l = ?e ++ ?l => unify e [a]; reflexivity
  | |- ?a :: ?b :: ?l = ?e ++ ?l => unify e [a; b]; reflexivity
  | |- ?evs ++ ?a :: ?l = ?e ++ ?l =>
      unify e (evs ++ [a]); rewrite <- app_assoc; reflexivity
  | |- ?evs ++ ?a :: ?b :: ?l = ?e ++ ?l =>
      unify e (evs ++ [a; b]); rewrite <- app_assoc; reflexivity
  end.

Lemma world_calls_eq f n i u s (c1 c2 : list Call) :
  c1 = c2 -> mkWorld f n i u s c1 = mkWorld f n i u s c2.
Proof. now intros ->. Qed.

Lemma add_calls_nil w : add_calls [] w = w.
Proof. destruct w; reflexivity. Qed.

Lemma add_calls_app e2 e1 w : add_calls e2 (add_calls e1 w) = add_calls (e2 ++ e1) w.
Proof. unfold add_calls. simpl. now rewrite app_assoc. Qed.

Lemma Promise_all_resolve us w :
  Promise_all (map resolve_entry us) w = Returned (records (net w) us) w.
Proof.
  induction us as [|e us IH]; simpl; [reflexivity|].
  unfold bind at 1. unfold resolve_entry at 1. unfold bind at 1.
  rewrite fetchSize_run. unfold ret at 1. unfold bind. rewrite IH. reflexivity.
Qed.

(** The items the collection loop of a scan receives. *)
Lemma scan_collections_working c cols us w :
  cms (framer w) = Some c -> getItems c = Working ->
  exists evs, Forall is_enumeration evs /\
    for_of cols scan_collection us w
    = Returned
        (fold_left scan_item
           (concat (map (fun col => host_getItems (col_id col) c) cols)) us)
        (add_calls evs w).
Proof.
  intros Hc Hg. revert us w Hc.
  induction cols as [|col cols IH]; intros us w Hc; simpl.
  - exists []. split; [constructor|]. now rewrite add_calls_nil.
  - unfold bind at 1. unfold scan_collection at 1, call_getItems, bind, cms_namespace.
    rewrite Hc, Hg. simpl.
    destruct (IH (fold_left scan_item (host_getItems (col_id col) c) us)
                 (with_call (CallGetItems (col_id col)) w) Hc) as (evs & Hev & ->).
    exists (evs ++ [CallGetItems (col_id col)]). split.
    + apply Forall_app. split; [assumption | repeat constructor].
    + rewrite fold_left_app. f_equal.
      unfold add_calls, with_call. simpl. now rewrite <- app_assoc.
Qed.

Lemma scan_collections_absent c cols us w :
  cms (framer w) = Some c -> getItems c = Absent ->
  for_of cols scan_collection us w = Returned us w.
Proof.
  intros Hc Hg. induction cols as [|col cols IH]; simpl; [reflexivity|].
  unfold bind at 1. unfold scan_collection at 1, call_getItems, bind, cms_namespace.
  rewrite Hc, Hg. simpl. exact IH.
Qed.

Lemma scan_collections_broken c col cols us w :
  cms (framer w) = Some c -> getItems c = Broken ->
  exists w', for_of (col :: cols) scan_collection us w = Thrown w'.
Proof.
  intros Hc Hg. simpl.
  unfold bind at 1. unfold scan_collection at 1, call_getItems, bind, cms_namespace.
  rewrite Hc, Hg. simpl. eauto.
Qed.

Lemma scan_outcome w :
  if scan_completes (framer w)
  then exists evs, Forall is_enumeration evs /\ scan w = Returned tt (scanned evs w)
  else exists w', scan w = Thrown w'.
Proof.
  unfold scan_completes, scan, scanned, usages_of, scanned_nodes, scanned_items.
  destruct (getNodes (framer w)) eqn:Hn;
    (destruct (cms (framer w)) as [c|] eqn:Hc;
     [destruct (getCollections c) eqn:Hcol;
      [| |destruct (getItems c) eqn:Hit;
          [| destruct (collections c) as [|col cols] eqn:Hcs |]]|]).
  all: run; unfold host_getCollections; try rewrite Hcs.
  all: try (eexists; reflexivity).
  all: try rewrite (scan_collections_absent c) by (simpl; assumption).
  all: try match goal with
       | |- context [for_of (?x :: ?l) _ ?us ?w0] =>
           destruct (scan_collections_broken c x l us w0) as (w' & ->);
           [simpl; assumption | assumption | eauto]
       end.
  all: try match goal with
       | |- context [for_of ?l _ ?us ?w0] =>
           destruct (scan_collections_working c l us w0) as (evs & Hev & ->);
           [simpl; assumption | assumption |]
       end.
  all: run; rewrite ?Promise_all_resolve; simpl.
  all: eexists;
    (split; [|unfold add_calls, with_selected, with_images, with_call, host_getNodes;
              simpl; apply (f_equal (Returned tt)), world_calls_eq; calls_witness]).
  all: rewrite ?Forall_app; repeat split; try assumption; repeat constructor.
Qed.

Lemma scan_returned w w' :
  scan w = Returned tt w' ->
  exists evs, Forall is_enumeration evs /\ w' = scanned evs w.
Proof.
  intros H. pose proof (scan_outcome w) as Ho.
  destruct (scan_completes (framer w)).
  - destruct Ho as (evs & Hev & Hs). exists evs. split; [assumption|]. congruence.
  - destruct Ho as (w'' & Hs). congruence.
Qed.

Lemma scan_completes_returns w :
  scan_completes (framer w) = true ->
  exists evs, Forall is_enumeration evs /\ scan w = Returned tt (scanned evs w).
Proof. intros H. pose proof (scan_outcome w) as Ho. now rewrite H in Ho. Qed.

(** ** The Collector *)

(** C2: the count a completed scan reports for a URL is the number of
    nodes whose resolved [image]/[src] value is that URL and qualifies,
    plus the number of item fields whose value is that URL and qualifies,
    over the two sources as enumerated (each node once, each field once). *)
Theorem scan_counts_occurrences (w w' : World) (u : string) :
  scan w = Returned tt w' ->
  reported_count u (images w')
  = node_occurrences u (scanned_nodes (framer w))
    + field_occurrences u (scanned_items (framer w)).
Proof.
  intros H. destruct (scan_returned w w' H) as (evs & _ & ->). simpl.
  rewrite reported_count_records. apply tally_usages_of.
Qed.

(** On the sample project two nodes and one item field reference [url_a]:
    the scan reports 3. *)
Lemma scan_counts_occurrences_witness :
  scan world_sample = Returned tt (world_of (scan world_sample)) /\
  reported_count url_a (images (world_of (scan world_sample))) = 2 + 1.
Proof.
  split; [reflexivity|].
  rewrite (scan_counts_occurrences world_sample (world_of (scan world_sample)) url_a);
    reflexivity.
Defined.

Lemma get_truthy_node_url n v :
  get_prop "image" (default [] (props n)) = v -> truthy v = true -> node_url n = v.
Proof. intros Hv Ht. unfold node_url, js_or. simpl. now rewrite Hv, Ht. Qed.

(** C3 (as amended): when the primary [image] slot holds a non-empty
    string, that string is the node's URL and the node's whole
    contribution is one increment for it if it qualifies, none otherwise,
    whatever the [src] slot holds; so when both slots hold qualifying
    strings only the primary one is counted. *)
Theorem primary_slot_priority (n : Node) (s : string) (i : nat)
    (usages : list (string * nat)) :
  get_prop "image" (default [] (props n)) = VStr s ->
  s <> "" ->
  node_url n = VStr s /\
  scan_node usages (i, n) = (if includes s HOST then bump s usages else usages).
Proof.
  intros Hs Hne.
  assert (Hu : node_url n = VStr s).
  { apply get_truthy_node_url; [assumption|]. simpl.
    destruct (String.eqb_spec s ""); [contradiction | reflexivity]. }
  split; [assumption|]. unfold scan_node. simpl. rewrite Hu. simpl.
  destruct (includes s HOST); reflexivity.
Qed.

(** A node with [url_b] in [image] and [url_a] in [src] counts for [url_b]
    only. *)
Lemma primary_slot_priority_witness :
  let n := mkNode (Some [("image", VStr url_b); ("src", VStr url_a)]) Working in
  (get_prop "image" (default [] (props n)) = VStr url_b /\ url_b <> "") /\
  node_url n = VStr url_b /\
  scan_node [] (0, n) = (if includes url_b HOST then bump url_b [] else []).
Proof.
  intros n. split; [split; [reflexivity | discriminate]|].
  apply (primary_slot_priority n url_b 0 []); [reflexivity | discriminate].
Defined.

(** C3 (as stated) fails: the empty string in the primary slot is a string,
    yet the fallback slot is read and its URL counted. *)
Lemma primary_slot_empty_string_counterexample :
  ~ primary_string_wins node_empty_image /\
  scan_node [] (0, node_empty_image) = [(url_a, 1)].
Proof.
  split; [|reflexivity].
  intros H. specialize (H "" eq_refl). discriminate H.
Qed.

(** ** Missing host methods *)

Lemma host_getItems_emptied cid cols g1 g2 p :
  host_getItems cid
    (mkCms g1 g2 p (map (fun col => mkCollection (col_id col) []) cols)) = [].
Proof.
  unfold host_getItems. simpl.
  induction cols as [|col cols IH]; simpl; [reflexivity|].
  destruct (col_id col =? cid); [reflexivity | exact IH].
Qed.

Lemma concat_all_nil {A B} (f : A -> list B) l :
  (forall x, f x = []) -> concat (map f l) = [].
Proof. intros H. induction l; simpl; [reflexivity | now rewrite H]. Qed.

Lemma usages_of_as_empty_sources f :
  usages_of (as_empty_sources f) = usages_of f.
Proof.
  unfold usages_of. f_equal.
  unfold scanned_items, as_empty_sources. simpl.
  destruct (cms f) as [c|]; [|reflexivity]. simpl.
  destruct (getCollections c), (getItems c); try reflexivity.
  - rewrite map_map. apply concat_all_nil. intros col. apply host_getItems_emptied.
  - rewrite map_map. apply concat_all_nil. intros col. apply host_getItems_emptied.
Qed.

(** C4 (as amended): on a host whose [cms] namespace exists and whose
    enumeration methods are each either missing or working, the scan
    completes, and it produces the records it would produce were every
    missing method a working one over an empty sequence. *)
Theorem scan_treats_missing_methods_as_empty (w : World) (c : Cms) :
  cms (framer w) = Some c ->
  getNodes (framer w) <> Broken ->
  getCollections c <> Broken ->
  getItems c <> Broken ->
  exists w1 w2,
    scan w = Returned tt w1 /\
    scan (with_framer (as_empty_sources (framer w)) w) = Returned tt w2 /\
    images w1 = images w2.
Proof.
  intros Hc Hn Hcol Hit.
  destruct (scan_completes_returns w) as (e1 & _ & H1).
  { unfold scan_completes. rewrite Hc.
    destruct (getNodes (framer w)), (getCollections c), (getItems c),
      (collections c); try reflexivity; contradiction. }
  destruct (scan_completes_returns (with_framer (as_empty_sources (framer w)) w))
    as (e2 & _ & H2).
  { simpl. unfold scan_completes, as_empty_sources. rewrite Hc. simpl.
    destruct (getCollections c), (getItems c), (collections c); reflexivity. }
  eexists _, _. split; [exact H1|]. split; [exact H2|]. simpl.
  now rewrite usages_of_as_empty_sources.
Qed.

(** With node enumeration alone, the scan reports the canvas' URLs. *)
Lemma scan_treats_missing_methods_as_empty_witness :
  (cms (framer world_nodes_only) = Some (mkCms Absent Absent Absent sample_collections) /\
   getNodes (framer world_nodes_only) <> Broken /\
   Absent <> Broken) /\
  exists w1 w2,
    scan world_nodes_only = Returned tt w1 /\
    scan (with_framer (as_empty_sources (framer world_nodes_only)) world_nodes_only)
      = Returned tt w2 /\
    images w1 = images w2.
Proof.
  split; [repeat split; discriminate|].
  apply (scan_treats_missing_methods_as_empty world_nodes_only
           (mkCms Absent Absent Absent sample_collections));
    [reflexivity | discriminate | discriminate | discriminate].
Defined.

(** C4 (as stated) fails: on a host that offers no API at all the [cms]
    namespace is missing too, and the scan throws instead of completing on
    empty sources. *)
Lemma scan_without_cms_counterexample :
  getNodes (framer world_without_apis) = Absent /\
  cms (framer world_without_apis) = None /\
  scan world_without_apis = Thrown world_without_apis /\
  ~ exists w', scan world_without_apis = Returned tt w'.
Proof.
  repeat split. intros [w' H]. discriminate H.
Qed.

(** ** The selection *)

(** C9: after a scan that completes, the selection is the empty mapping,
    whatever it was before. *)
Theorem scan_clears_selection (w w' : World) :
  scan w = Returned tt w' -> selected w' = [].
Proof.
  intros H. destruct (scan_returned w w' H) as (evs & _ & ->). reflexivity.
Qed.

(** The sample world starts with a stale selection; its scan empties it. *)
Lemma scan_clears_selection_witness :
  selected world_sample <> [] /\
  scan world_sample = Returned tt (world_of (scan world_sample)) /\
  selected (world_of (scan world_sample)) = [].
Proof.
  split; [discriminate|]. split; [reflexivity|].
  apply (scan_clears_selection world_sample). reflexivity.
Defined.

(** ** The Replacer's guard *)

(** C6: with an empty replacement URL, or with no selected URL, [replace]
    returns at once and the world is exactly as before: no host call in the
    log, no scan, no state change. *)
Theorem replace_noop (w : World) :
  newUrl w = "" \/ targets_of (selected w) = [] ->
  replace w = Returned tt w.
Proof.
  intros H. unfold replace, bind, read.
  destruct H as [-> | ->]; simpl; [reflexivity|].
  now rewrite orb_true_r.
Qed.

(** A replacement URL typed with nothing ticked: nothing happens. *)
Lemma replace_noop_witness :
  (newUrl world_typed_only = url_new /\ targets_of (selected world_typed_only) = []) /\
  replace world_typed_only = Returned tt world_typed_only.
Proof.
  split; [split; reflexivity|].
  apply (replace_noop world_typed_only). right. reflexivity.
Defined.

(** ** Which calls a computation logs *)

Section Logs.
Variable P : Call -> Prop.

Lemma logs_only_ret {A} (a : A) : logs_only P (ret a).
Proof. intros w. exists []. split; [constructor | reflexivity]. Qed.

Lemma logs_only_throw {A} : logs_only P (@throw A).
Proof. intros w. exists []. split; [constructor | reflexivity]. Qed.

Lemma logs_only_log c : P c -> logs_only P (log c).
Proof. intros Hc w. exists [c]. split; [repeat constructor; assumption | reflexivity]. Qed.

Lemma logs_only_quiet {A} (m : M A) :
  (forall w, calls (world_of (m w)) = calls w) -> logs_only P m.
Proof. intros H w. exists []. split; [constructor | apply H]. Qed.

Lemma logs_only_bind {A B} (m : M A) (k : A -> M B) :
  logs_only P m -> (forall a, logs_only P (k a)) -> logs_only P (bind m k).
Proof.
  intros Hm Hk w. unfold bind. destruct (Hm w) as (e1 & He1 & H1).
  destruct (m w) as [a w1|w1]; simpl in H1.
  - destruct (Hk a w1) as (e2 & He2 & H2). exists (e2 ++ e1). split.
    + apply Forall_app. now split.
    + rewrite H2, H1. apply app_assoc.
  - exists e1. now split.
Qed.

Lemma logs_only_for_of {A S} (body : A -> S -> M S) (l : list A) (s : S) :
  (forall x s', logs_only P (body x s')) -> logs_only P (for_of l body s).
Proof.
  intros Hb. revert s. induction l as [|x l IH]; intros s; simpl.
  - apply logs_only_ret.
  - apply logs_only_bind; [apply Hb | intros s'; apply IH].
Qed.
End Logs.

Lemma logs_only_cms_namespace P : logs_only P cms_namespace.
Proof.
  apply logs_only_quiet. intros w. unfold cms_namespace.
  destruct (cms (framer w)); reflexivity.
Qed.

Lemma logs_only_call_getItems P cid :
  P (CallGetItems cid) -> logs_only P (call_getItems cid).
Proof.
  intros Hp. apply logs_only_bind; [apply logs_only_cms_namespace|].
  intros c. destruct (getItems c).
  - apply logs_only_ret.
  - apply logs_only_bind; [now apply logs_only_log | intros; apply logs_only_throw].
  - apply logs_only_bind; [now apply logs_only_log | intros; apply logs_only_ret].
Qed.

Lemma logs_only_call_getCollections P :
  P CallGetCollections -> logs_only P call_getCollections.
Proof.
  intros Hp. apply logs_only_bind; [apply logs_only_cms_namespace|].
  intros c. destruct (getCollections c).
  - apply logs_only_ret.
  - apply logs_only_bind; [now apply logs_only_log | intros; apply logs_only_throw].
  - apply logs_only_bind; [now apply logs_only_log | intros; apply logs_only_ret].
Qed.


Lemma logs_only_call_getNodes P : P CallGetNodes -> logs_only P call_getNodes.
Proof.
  intros Hp w. unfold call_getNodes. destruct (getNodes (framer w)).
  - exists []. split; [constructor | reflexivity].
  - exists [CallGetNodes]. split; [repeat constructor; assumption | reflexivity].
  - exists [CallGetNodes]. split; [repeat constructor; assumption | reflexivity].
Qed.

(** A scan logs enumeration calls only, also when it throws. *)
Lemma logs_only_scan P : (forall c, is_enumeration c -> P c) -> logs_only P scan.
Proof.
  intros Hp. unfold scan.
  apply logs_only_bind; [apply logs_only_call_getNodes, Hp; exact I|].
  intros nodes.
  apply logs_only_bind; [apply logs_only_call_getCollections, Hp; exact I|].
  intros cols. apply logs_only_bind.
  - apply logs_only_for_of. intros col us. unfold scan_collection.
    apply logs_only_bind; [apply logs_only_call_getItems, Hp; exact I|].
    intros its. apply logs_only_ret.
  - intros us. apply logs_only_bind.
    + apply logs_only_quiet. intros w. now rewrite Promise_all_resolve.
    + intros l. apply logs_only_bind; [|intros _]; apply logs_only_quiet; reflexivity.
Qed.




Lemma enumeration_not_setProps evs :
  Forall is_enumeration evs -> Forall (fun c => ~ is_setProps c) evs.
Proof.
  intros H. eapply Forall_impl; [exact H|]. intros []; simpl; tauto.
Qed.

(** ** The Replacer past its guard *)

Lemma bind_assoc {A B C} (m : M A) (k : A -> M B) (h : B -> M C) w :
  bind (bind m k) h w = bind m (fun a => bind (k a) h) w.
Proof. unfold bind. destruct (m w); reflexivity. Qed.

Lemma replace_run w :
  newUrl w <> "" -> targets_of (selected w) <> [] ->
  replace w
  = bind (replace_updates (targets_of (selected w)) (newUrl w))
      (fun _ => bind scan (fun _ => setNewUrl "")) w.
Proof.
  intros Hn Ht. unfold replace. unfold bind at 1 2, read. simpl.
  destruct (String.eqb_spec (newUrl w) ""); [contradiction|].
  destruct (targets_of (selected w)); [contradiction | reflexivity].
Qed.

Lemma is_target_nonempty targets v : is_target targets v = true -> targets <> [].
Proof. intros H ->. destruct v; discriminate H. Qed.

(** C8: once past its guard, a [replace] that completes has run the two
    update loops, then a full scan of the host as the loops left it, then
    cleared the replacement-URL input; no assumption is made on how many
    references were rewritten. *)
Theorem replace_rescans_and_clears (w w' : World) :
  newUrl w <> "" ->
  targets_of (selected w) <> [] ->
  replace w = Returned tt w' ->
  exists w1 w2,
    replace_updates (targets_of (selected w)) (newUrl w) w = Returned tt w1 /\
    scan w1 = Returned tt w2 /\
    w' = with_newUrl "" w2 /\
    newUrl w' = "" /\
    selected w' = [] /\
    images w' = records (net w1) (usages_of (framer w1)).
Proof.
  intros Hn Ht H. rewrite replace_run in H by assumption.
  unfold bind at 1 in H.
  destruct (replace_updates _ _ w) as [[] w1|w1]; [|discriminate H].
  unfold bind at 1 in H.
  destruct (scan w1) as [[] w2|w2] eqn:Hs; [|discriminate H].
  unfold setNewUrl in H. injection H as <-.
  exists w1, w2. repeat split; try assumption.
  - destruct (scan_returned w1 w2 Hs) as (evs & _ & ->). reflexivity.
  - destruct (scan_returned w1 w2 Hs) as (evs & _ & ->). reflexivity.
Qed.

(** The ticked URL is no longer referenced anywhere: nothing is rewritten,
    and still the project is rescanned and the input cleared. *)
Lemma replace_rescans_and_clears_witness :
  (newUrl world_gone <> "" /\ targets_of (selected world_gone) <> [] /\
   replace world_gone = Returned tt (world_of (replace world_gone))) /\
  framer (world_of (replace world_gone)) = framer world_gone /\
  exists w1 w2,
    replace_updates (targets_of (selected world_gone)) (newUrl world_gone) world_gone
      = Returned tt w1 /\
    scan w1 = Returned tt w2 /\
    world_of (replace world_gone) = with_newUrl "" w2 /\
    newUrl (world_of (replace world_gone)) = "" /\
    selected (world_of (replace world_gone)) = [] /\
    images (world_of (replace world_gone)) = records (net w1) (usages_of (framer w1)).
Proof.
  split; [repeat split; discriminate|]. split; [reflexivity|].
  apply (replace_rescans_and_clears world_gone (world_of (replace world_gone)));
    [discriminate | discriminate | reflexivity].
Defined.


Lemma imap_shift {A} (k : nat) (l : list A) :
  imap ((fun j => pair (k + j)) ∘ S) l = imap (fun j => pair (S k + j)) l.
Proof. apply imap_ext. intros i x _. simpl. f_equal. lia. Qed.






(** ** Objects *)

Lemma get_prop_set_prop_eq k v o : get_prop k (set_prop k v o) = v.
Proof.
  induction o as [|[k' v'] o IH]; simpl.
  - now rewrite String.eqb_refl.
  - destruct (k' =? k) eqn:E; simpl; rewrite E; auto.
Qed.

Lemma get_prop_set_prop_ne k k' v o :
  k <> k' -> get_prop k' (set_prop k v o) = get_prop k' o.
Proof.
  intros Hne. induction o as [|[k0 v0] o IH]; simpl.
  - destruct (String.eqb_spec k k'); [contradiction | reflexivity].
  - destruct (String.eqb_spec k0 k) as [->|Hk]; simpl.
    + destruct (String.eqb_spec k k'); [contradiction | reflexivity].
    + destruct (k0 =? k'); auto.
Qed.

Lemma get_prop_app_fresh k pre o :
  ~ In k (keys pre) -> get_prop k (pre ++ o) = get_prop k o.
Proof.
  induction pre as [|[k' v'] pre IH]; simpl; intros Hn; [reflexivity|].
  destruct (String.eqb_spec k' k); [tauto | apply IH; tauto].
Qed.

Lemma set_prop_app_fresh k v pre o :
  ~ In k (keys pre) -> set_prop k v (pre ++ o) = pre ++ set_prop k v o.
Proof.
  induction pre as [|[k' v'] pre IH]; simpl; intros Hn; [reflexivity|].
  destruct (String.eqb_spec k' k); [tauto | f_equal; apply IH; tauto].
Qed.

Lemma get_prop_map k (f : value -> value) o :
  f VUndefined = VUndefined ->
  get_prop k (map (fun kv => (fst kv, f (snd kv))) o) = f (get_prop k o).
Proof.
  intros Hf. induction o as [|[k' v'] o IH]; simpl; [now rewrite Hf|].
  destruct (k' =? k); [reflexivity | exact IH].
Qed.

Lemma node_url_both_slots o new s :
  new <> "" ->
  node_url (mkNode (Some (assign o (both_slots new))) s) = VStr new.
Proof.
  intros Hne. unfold node_url, assign, both_slots, js_or. simpl.
  rewrite get_prop_set_prop_ne by discriminate. rewrite get_prop_set_prop_eq. simpl.
  destruct (String.eqb_spec new ""); [contradiction | reflexivity].
Qed.

Lemma both_slots_written o new :
  get_prop "image" (assign o (both_slots new)) = VStr new /\
  get_prop "src" (assign o (both_slots new)) = VStr new.
Proof.
  unfold assign, both_slots. simpl. split.
  - rewrite get_prop_set_prop_ne by discriminate. apply get_prop_set_prop_eq.
  - apply get_prop_set_prop_eq.
Qed.

(** With each key once, the field loop of lines 98-104 rewrites every
    targeted value in place and raises [changed] when there is one. *)
Lemma replace_fields_loop targets new suf pre ch :
  NoDup (keys pre ++ keys suf) ->
  fold_left
    (fun st key =>
       if is_target targets (get_prop key (fst st))
       then (set_prop key (VStr new) (fst st), true)
       else st)
    (keys suf) (pre ++ suf, ch)
  = (pre ++ map (fun kv => (fst kv, rewrite_value targets new (snd kv))) suf,
     ch || existsb (is_target targets) (values suf)).
Proof.
  revert pre ch. induction suf as [|[k v] suf IH]; intros pre ch Hnd; simpl.
  - now rewrite orb_false_r.
  - assert (Hk : ~ In k (keys pre)).
    { apply NoDup_app in Hnd as (_ & Hd & _). intros Hin.
      apply (Hd k); [now apply list_elem_of_In | left]. }
    assert (Hnd' : NoDup (keys (pre ++ [(k, rewrite_value targets new v)]) ++ keys suf)).
    { unfold keys in *. rewrite map_app. simpl. now rewrite <- app_assoc. }
    rewrite get_prop_app_fresh by assumption. simpl. rewrite String.eqb_refl.
    unfold rewrite_value in *.
    destruct (is_target targets v) eqn:Ht; simpl.
    + rewrite set_prop_app_fresh by assumption. simpl. rewrite String.eqb_refl.
      change (pre ++ (k, VStr new) :: suf) with (pre ++ [(k, VStr new)] ++ suf).
      rewrite app_assoc, IH by assumption.
      rewrite <- app_assoc. simpl. now rewrite orb_true_r.
    + change (pre ++ (k, v) :: suf) with (pre ++ [(k, v)] ++ suf).
      rewrite app_assoc, IH by assumption.
      rewrite <- app_assoc. reflexivity.
Qed.

Lemma replace_fields_map targets new fs :
  NoDup (keys fs) ->
  replace_fields targets new fs
  = (map (fun kv => (fst kv, rewrite_value targets new (snd kv))) fs,
     existsb (is_target targets) (values fs)).
Proof. intros H. exact (replace_fields_loop targets new fs [] false H). Qed.

Lemma rewrite_value_id targets new fs :
  existsb (is_target targets) (values fs) = false ->
  map (fun kv => (fst kv, rewrite_value targets new (snd kv))) fs = fs.
Proof.
  induction fs as [|[k v] fs IH]; simpl; [reflexivity|].
  intros H. apply orb_false_iff in H as [Hv Hfs].
  unfold rewrite_value at 1. rewrite Hv, IH by assumption. reflexivity.
Qed.

(** The fields of a rewritten item. *)
Lemma new_item_fields targets new it :
  item_ready it ->
  default [] (fields (new_item targets new it))
  = map (fun kv => (fst kv, rewrite_value targets new (snd kv)))
      (default [] (fields it)).
Proof.
  intros Hr. unfold new_item. rewrite replace_fields_map by assumption. simpl.
  destruct (existsb _ _) eqn:E; simpl; [reflexivity|].
  now rewrite rewrite_value_id.
Qed.

Lemma new_item_id targets new it : item_id (new_item targets new it) = item_id it.
Proof. unfold new_item. destruct (snd _); reflexivity. Qed.

(** ** The host after the update loops *)

Lemma world_eq f1 f2 n i u s (c1 c2 : list Call) :
  f1 = f2 -> c1 = c2 -> mkWorld f1 n i u s c1 = mkWorld f2 n i u s c2.
Proof. now intros -> ->. Qed.

(** The node loop, on a working canvas: the nodes still to visit are
    rewritten one by one, those before them are left as they are. *)
Lemma replace_nodes_store targets new l :
  forall pre k w,
    k = length pre ->
    canvas (framer w) = pre ++ l ->
    Forall (fun n => setProps n = Working) l ->
    exists evs,
      for_of (imap (fun j => pair (k + j)) l) (replace_node targets new) tt w
      = Returned tt
          (add_calls evs
             (with_framer
                (with_canvas (pre ++ map (new_node targets new) l) (framer w)) w)).
Proof.
  induction l as [|n l IH]; intros pre k w Hk Hc Hw.
  - exists []. cbn [imap for_of map]. unfold ret. f_equal.
    destruct w as [[gn cv cm] nt im nu sel cs]. simpl in *. subst cv. reflexivity.
  - apply Forall_cons in Hw as [Hn Hl].
    change (imap (fun j => pair (k + j)) (n :: l))
      with ((k + 0, n) :: imap ((fun j => pair (k + j)) ∘ S) l).
    rewrite imap_shift. cbn [for_of map]. unfold bind at 1.
    unfold replace_node at 1. cbn [fst snd].
    assert (Hk' : S k = length (pre ++ [new_node targets new n]))
      by (rewrite length_app; simpl; lia).
    destruct (is_target targets (node_url n)) eqn:Ht.
    + unfold call_setProps. cbn [fst snd]. rewrite Hn. unfold bind at 1, log at 1.
      set (w1 := with_framer _ _).
      destruct (IH (pre ++ [new_node targets new n]) (S k) w1 Hk') as (evs & ->);
        [|assumption|].
      { unfold w1, host_setProps, new_node. simpl. rewrite Hc, Ht, Hk, alter_app_r.
        simpl. now rewrite <- app_assoc. }
      exists (evs ++ [CallSetProps (k + 0) (both_slots new)]). f_equal.
      unfold w1.
      destruct w as [[gn cv cm] nt im nu sel cs]. simpl in *.
      unfold add_calls, with_framer, with_canvas, host_setProps. simpl.
      apply world_eq; [|now rewrite <- app_assoc].
      f_equal. now rewrite <- app_assoc.
    + unfold ret at 1.
      destruct (IH (pre ++ [new_node targets new n]) (S k) w Hk') as (evs & ->);
        [|assumption|].
      { unfold new_node. rewrite Ht, Hc. now rewrite <- app_assoc. }
      exists evs. do 4 f_equal. now rewrite <- app_assoc.
Qed.

Lemma patch_items_fresh iid fs l :
  ~ In iid (map item_id l) ->
  map (fun it => if item_id it =? iid then mkItem (item_id it) (Some fs) else it) l = l.
Proof.
  induction l as [|it l IH]; simpl; intros Hn; [reflexivity|].
  destruct (String.eqb_spec (item_id it) iid); [tauto|].
  f_equal. apply IH. tauto.
Qed.

Lemma patch_collections_fresh cid (g : Collection -> Collection) l :
  ~ In cid (map col_id l) ->
  map (fun col => if col_id col =? cid then g col else col) l = l.
Proof.
  induction l as [|col l IH]; simpl; intros Hn; [reflexivity|].
  destruct (String.eqb_spec (col_id col) cid); [tauto|].
  f_equal. apply IH. tauto.
Qed.

(** Patching the one item [it] of the one collection [cid]. *)
Lemma host_patchItem_middle c cid pre post done it todo fs :
  collections c = pre ++ mkCollection cid (done ++ it :: todo) :: post ->
  ~ In cid (map col_id pre) -> ~ In cid (map col_id post) ->
  NoDup (map item_id (done ++ it :: todo)) ->
  host_patchItem cid (item_id it) fs c
  = with_collections
      (pre ++ mkCollection cid (done ++ mkItem (item_id it) (Some fs) :: todo) :: post) c.
Proof.
  intros Hc Hpre Hpost Hnd. unfold host_patchItem. f_equal. rewrite Hc.
  rewrite map_app. simpl. rewrite String.eqb_refl.
  rewrite (patch_collections_fresh cid _ pre Hpre).
  rewrite (patch_collections_fresh cid _ post Hpost).
  do 3 f_equal. rewrite map_app. simpl. rewrite String.eqb_refl.
  rewrite map_app in Hnd. simpl in Hnd.
  apply NoDup_app in Hnd as (_ & Hd & Ht). apply NoDup_cons in Ht as [Hi _].
  rewrite !patch_items_fresh; [reflexivity| |].
  - intros Hin. apply Hi. now apply list_elem_of_In.
  - intros Hin. apply (Hd (item_id it)); [now apply list_elem_of_In | left].
Qed.

(** The item loop, inside the collection [cid]. *)
Lemma replace_items_store targets new cid todo :
  forall done w c pre post,
    cms (framer w) = Some c ->
    patchItem c = Working ->
    collections c = pre ++ mkCollection cid (done ++ todo) :: post ->
    ~ In cid (map col_id pre) -> ~ In cid (map col_id post) ->
    NoDup (map item_id (done ++ todo)) ->
    exists evs,
      for_of todo (replace_item targets new cid) tt w
      = Returned tt
          (add_calls evs
             (with_framer
                (with_cms
                   (with_collections
                      (pre ++ mkCollection cid
                                (done ++ map (new_item targets new) todo) :: post)
                      c)
                   (framer w))
                w)).
Proof.
  induction todo as [|it todo IH]; intros done w c pre post Hc Hp Hcs Hpre Hpost Hnd.
  - exists []. simpl. unfold ret. f_equal.
    destruct w as [[gn cv cm] nt im nu sel cs]. destruct c as [g1 g2 g3 cols].
    simpl in *. subst. reflexivity.
  - simpl. unfold bind at 1. unfold replace_item at 1.
    assert (Hnd' : NoDup (map item_id ((done ++ [new_item targets new it]) ++ todo))).
    { rewrite <- app_assoc. simpl. rewrite map_app in *. simpl in *.
      now rewrite new_item_id. }
    destruct (snd (replace_fields targets new (default [] (fields it)))) eqn:Hch.
    + unfold call_patchItem, bind at 1, cms_namespace. rewrite Hc, Hp.
      unfold bind at 1, log at 1.
      rewrite (host_patchItem_middle c cid pre post done it todo) by assumption.
      set (c1 := with_collections _ c). set (w1 := with_framer _ _).
      destruct (IH (done ++ [new_item targets new it]) w1 c1 pre post)
        as (evs & ->); try assumption; try reflexivity.
      { unfold c1, new_item. simpl. rewrite Hch. now rewrite <- app_assoc. }
      eexists (evs ++ [_]). f_equal.
      unfold w1, c1, new_item. rewrite Hch.
      destruct w as [[gn cv cm] nt im nu sel cs]. destruct c as [g1 g2 g3 cols].
      simpl in *. unfold add_calls, with_framer, with_cms, with_collections. simpl.
      apply world_eq; [|now rewrite <- app_assoc].
      do 4 f_equal. now rewrite <- app_assoc.
    + unfold ret at 1.
      destruct (IH (done ++ [new_item targets new it]) w c pre post)
        as (evs & ->); try assumption.
      { unfold new_item. rewrite Hch, Hcs. now rewrite <- app_assoc. }
      exists evs. do 6 f_equal. unfold new_item. rewrite Hch.
      now rewrite <- app_assoc.
Qed.

(** With distinct collection ids, [getItems(col.id)] serves [col]'s items. *)
Lemma host_getItems_own c pre col post :
  collections c = pre ++ col :: post ->
  ~ In (col_id col) (map col_id pre) ->
  host_getItems (col_id col) c = items col.
Proof.
  intros Hc Hpre. unfold host_getItems. rewrite Hc. clear Hc.
  induction pre as [|x pre IH]; simpl in *.
  - now rewrite String.eqb_refl.
  - destruct (String.eqb_spec (col_id x) (col_id col)); [tauto | apply IH; tauto].
Qed.

(** The collection loop. *)
Lemma replace_collections_store targets new todo :
  forall pre w c,
    cms (framer w) = Some c ->
    getItems c = Working -> patchItem c = Working ->
    collections c = pre ++ todo ->
    NoDup (map col_id (pre ++ todo)) ->
    Forall (fun col => NoDup (map item_id (items col))) todo ->
    exists evs,
      for_of todo (replace_collection targets new) tt w
      = Returned tt
          (add_calls evs
             (with_framer
                (with_cms
                   (with_collections
                      (pre ++ map (new_collection targets new) todo) c)
                   (framer w))
                w)).
Proof.
  induction todo as [|col todo IH]; intros pre w c Hc Hg Hp Hcs Hnd Hit.
  - exists []. simpl. unfold ret. f_equal.
    destruct w as [[gn cv cm] nt im nu sel cs]. destruct c as [g1 g2 g3 cols].
    simpl in *. subst. reflexivity.
  - apply Forall_cons in Hit as [Hcol Hit].
    assert (Hsplit := Hnd). rewrite map_app in Hsplit. simpl in Hsplit.
    apply NoDup_app in Hsplit as (_ & Hd & Ht). apply NoDup_cons in Ht as [Hpost _].
    assert (Hpre : ~ In (col_id col) (map col_id pre)).
    { intros Hin. apply (Hd (col_id col)); [now apply list_elem_of_In | left]. }
    assert (Hpost' : ~ In (col_id col) (map col_id todo)).
    { intros Hin. apply Hpost. now apply list_elem_of_In. }
    simpl. unfold bind at 1. unfold replace_collection at 1.
    unfold bind at 1. unfold call_getItems, bind at 1, cms_namespace.
    rewrite Hc, Hg. unfold bind at 1, log at 1, ret at 1.
    rewrite (host_getItems_own c pre col todo Hcs Hpre).
    destruct (replace_items_store targets new (col_id col) (items col) []
                (with_call (CallGetItems (col_id col)) w) c pre todo)
      as (e1 & ->); try assumption.
    { rewrite Hcs. destruct col; reflexivity. }
    set (c1 := with_collections _ c). set (w1 := add_calls e1 _).
    destruct (IH (pre ++ [new_collection targets new col]) w1 c1)
      as (e2 & ->); try assumption; try reflexivity.
    { unfold c1, new_collection. simpl. now rewrite <- app_assoc. }
    { rewrite <- app_assoc. simpl. rewrite map_app in *. exact Hnd. }
    exists (e2 ++ e1 ++ [CallGetItems (col_id col)]). f_equal.
    unfold w1, c1, new_collection.
    destruct w as [[gn cv cm] nt im nu sel cs]. destruct c as [g1 g2 g3 cols].
    simpl in *. unfold add_calls, with_framer, with_cms, with_collections. simpl.
    apply world_eq; [|now rewrite <- !app_assoc].
    now rewrite <- app_assoc.
Qed.

(** The two loops together, on a ready host: they complete, and leave the
    host rewritten by [replaced_host] and everything else but the call log
    as it was. *)
Lemma replace_updates_store targets new w :
  host_ready (framer w) ->
  exists evs,
    replace_updates targets new w
    = Returned tt
        (add_calls evs (with_framer (replaced_host targets new (framer w)) w)).
Proof.
  intros (Hg & Hs & c & Hc & Hgc & Hgi & Hp & Hnd & Hr).
  unfold replace_updates. unfold bind at 1. unfold call_getNodes. rewrite Hg.
  unfold bind at 1. unfold host_getNodes.
  destruct (replace_nodes_store targets new (canvas (framer w)) [] 0
              (with_call CallGetNodes w)) as (e1 & He1);
    [reflexivity | reflexivity | assumption |].
  change (imap (fun j => pair (0 + j)) (canvas (framer w)))
    with (imap pair (canvas (framer w))) in He1.
  rewrite He1. clear He1.
  set (w1 := add_calls e1 _).
  unfold bind at 1. unfold call_getCollections, bind at 1, cms_namespace.
  change (cms (framer w1)) with (cms (framer w)). rewrite Hc, Hgc.
  unfold bind at 1, log at 1, ret at 1, host_getCollections.
  destruct (replace_collections_store targets new (collections c) []
              (with_call CallGetCollections w1) c) as (e2 & ->);
    try assumption; try reflexivity.
  { eapply Forall_impl; [exact Hr|]. now intros col [H _]. }
  exists (e2 ++ [CallGetCollections] ++ e1 ++ [CallGetNodes]). f_equal.
  unfold w1, replaced_host. rewrite Hc.
  destruct w as [[gn cv cm] nt im nu sel cs]. destruct c as [g1 g2 g3 cols].
  simpl in *. unfold add_calls, with_framer, with_cms, with_collections. simpl.
  apply world_eq; [reflexivity|].
  repeat (rewrite <- app_assoc; simpl). reflexivity.
Qed.

Lemma replaced_host_ready_scan targets new f :
  host_ready f -> scan_completes (replaced_host targets new f) = true.
Proof.
  intros (Hg & _ & c & Hc & Hgc & Hgi & _). unfold scan_completes, replaced_host.
  simpl. rewrite Hg, Hc. simpl. rewrite Hgc, Hgi.
  now destruct (map (new_collection targets new) (collections c)).
Qed.

(** A [replace] past its guard on a ready host: it completes, the host is
    rewritten by [replaced_host], and the records shown are those of a scan
    of the rewritten host. *)
Lemma replace_ready w :
  host_ready (framer w) ->
  newUrl w <> "" -> targets_of (selected w) <> [] ->
  exists w',
    replace w = Returned tt w' /\
    framer w' = replaced_host (targets_of (selected w)) (newUrl w) (framer w) /\
    images w'
    = records (net w)
        (usages_of (replaced_host (targets_of (selected w)) (newUrl w) (framer w))).
Proof.
  intros Hr Hn Ht. rewrite replace_run by assumption.
  destruct (replace_updates_store (targets_of (selected w)) (newUrl w) w Hr)
    as (e1 & Hu).
  unfold bind at 1. rewrite Hu. unfold bind at 1.
  set (w1 := add_calls e1 _).
  destruct (scan_completes_returns w1) as (e2 & _ & ->).
  { unfold w1. simpl. now apply replaced_host_ready_scan. }
  eexists. split; [reflexivity|]. split; reflexivity.
Qed.

Lemma is_target_In targets u : is_target targets (VStr u) = true <-> In u targets.
Proof.
  simpl. rewrite existsb_exists. split.
  - intros (t & Hin & He). apply String.eqb_eq in He. now subst.
  - intros Hin. exists u. split; [assumption | apply String.eqb_refl].
Qed.

Lemma is_occurrence_inv u v : is_occurrence u v = true -> v = VStr u.
Proof.
  unfold is_occurrence, qualifies. destruct v; try discriminate.
  destruct (includes s HOST); [|discriminate].
  intros H. apply String.eqb_eq in H. now subst.
Qed.

(** A selected URL other than the replacement is no occurrence of any
    rewritten value. *)
Lemma rewrite_value_no_occurrence targets new u v :
  In u targets -> u <> new ->
  is_occurrence u (rewrite_value targets new v) = false.
Proof.
  intros Hin Hne. unfold rewrite_value.
  destruct (is_target targets v) eqn:Ht.
  - destruct (is_occurrence u (VStr new)) eqn:E; [|reflexivity].
    apply is_occurrence_inv in E. congruence.
  - destruct (is_occurrence u v) eqn:E; [|reflexivity].
    apply is_occurrence_inv in E. subst v.
    apply is_target_In in Hin. congruence.
Qed.

Lemma new_node_no_occurrence targets new u n :
  new <> "" -> In u targets -> u <> new ->
  is_occurrence u (node_url (new_node targets new n)) = false.
Proof.
  intros Hnew Hin Hne. unfold new_node.
  destruct (is_target targets (node_url n)) eqn:Ht.
  - rewrite node_url_both_slots by assumption.
    destruct (is_occurrence u (VStr new)) eqn:E; [|reflexivity].
    apply is_occurrence_inv in E. congruence.
  - destruct (is_occurrence u (node_url n)) eqn:E; [|reflexivity].
    apply is_occurrence_inv in E. rewrite E in Ht.
    apply is_target_In in Hin. congruence.
Qed.

Lemma length_filter_none {A} (P : A -> Prop) `{!forall x, Decision (P x)} l :
  (forall x, In x l -> ~ P x) -> length (filter P l) = 0.
Proof.
  induction l as [|x l IH]; intros Hall; [reflexivity|].
  rewrite length_filter_cons.
  destruct (decide (P x)) as [Hp|_]; [exfalso; apply (Hall x); [now left | assumption]|].
  apply IH. intros y Hy. apply Hall. now right.
Qed.

Lemma new_item_no_occurrence targets new u it :
  item_ready it -> In u targets -> u <> new ->
  item_occurrences u (new_item targets new it) = 0.
Proof.
  intros Hr Hin Hne. unfold item_occurrences.
  rewrite new_item_fields by assumption.
  apply length_filter_none. intros v Hv. unfold values in Hv.
  rewrite map_map in Hv. simpl in Hv. apply in_map_iff in Hv as (kv & <- & _).
  rewrite rewrite_value_no_occurrence by assumption. discriminate.
Qed.

Lemma field_occurrences_app u l1 l2 :
  field_occurrences u (l1 ++ l2) = field_occurrences u l1 + field_occurrences u l2.
Proof.
  unfold field_occurrences. rewrite map_app.
  induction (map (item_occurrences u) l1) as [|x l IH]; simpl; [reflexivity|].
  rewrite IH. lia.
Qed.

Lemma field_occurrences_none u its :
  (forall it, In it its -> item_occurrences u it = 0) -> field_occurrences u its = 0.
Proof.
  induction its as [|it its IH]; intros H; [reflexivity|].
  change (it :: its) with ([it] ++ its). rewrite field_occurrences_app, IH.
  - unfold field_occurrences. simpl. rewrite (H it); [reflexivity | now left].
  - intros x Hx. apply H. now right.
Qed.

(** With distinct ids, the items a scan receives are the collections'
    own. *)
Lemma host_getItems_member c col :
  NoDup (map col_id (collections c)) -> In col (collections c) ->
  host_getItems (col_id col) c = items col.
Proof.
  intros Hnd Hin. apply list_elem_of_In, list_elem_of_split in Hin as (l1 & l2 & Hs).
  apply (host_getItems_own c l1 col l2 Hs).
  rewrite Hs, map_app in Hnd. simpl in Hnd.
  apply NoDup_app in Hnd as (_ & Hd & _). intros Hi.
  apply (Hd (col_id col)); [now apply list_elem_of_In | left].
Qed.

Lemma map_col_id_new targets new cols :
  map col_id (map (new_collection targets new) cols) = map col_id cols.
Proof. rewrite map_map. reflexivity. Qed.

(** After the loops a selected URL other than the replacement occurs
    nowhere in the host. *)
Lemma replaced_host_no_occurrence targets new f u :
  host_ready f -> new <> "" -> In u targets -> u <> new ->
  tally u (usages_of (replaced_host targets new f)) = 0.
Proof.
  intros (Hg & _ & c & Hc & Hgc & Hgi & _ & Hnd & Hr) Hnew Hin Hne.
  rewrite tally_usages_of.
  unfold scanned_nodes, scanned_items, replaced_host. simpl.
  rewrite Hg, Hc. simpl. rewrite Hgc, Hgi.
  set (c' := with_collections _ c).
  replace (node_occurrences u _) with 0.
  2:{ symmetry. apply length_filter_none. intros n' Hn'.
      apply in_map_iff in Hn' as (n & <- & _).
      rewrite new_node_no_occurrence by assumption. discriminate. }
  apply field_occurrences_none. intros it' Hit'.
  apply in_concat in Hit' as (its & Hits & Hit'').
  apply in_map_iff in Hits as (col' & <- & Hcol').
  rewrite (host_getItems_member c' col') in Hit''.
  - apply in_map_iff in Hcol' as (col & <- & Hcol). simpl in Hit''.
    apply in_map_iff in Hit'' as (it & <- & Hit).
    apply new_item_no_occurrence; try assumption.
    rewrite Forall_forall in Hr. apply list_elem_of_In in Hcol.
    destruct (Hr col Hcol) as [_ Hitems].
    rewrite Forall_forall in Hitems. apply Hitems. now apply list_elem_of_In.
  - unfold c'. simpl. now rewrite map_col_id_new.
  - exact Hcol'.
Qed.

Lemma lookup_map {A B} (f : A -> B) (l : list A) i x :
  l !! i = Some x -> map f l !! i = Some (f x).
Proof.
  revert i. induction l as [|y l IH]; intros [|i] H; simpl in *;
    try discriminate; [now injection H as -> | now apply IH].
Qed.

Lemma new_node_target targets new n :
  is_target targets (node_url n) = true ->
  get_prop "image" (default [] (props (new_node targets new n))) = VStr new /\
  get_prop "src" (default [] (props (new_node targets new n))) = VStr new.
Proof. intros Ht. unfold new_node. rewrite Ht. simpl. apply both_slots_written. Qed.


Lemma new_item_field targets new it key :
  item_ready it ->
  get_prop key (default [] (fields (new_item targets new it)))
  = rewrite_value targets new (get_prop key (default [] (fields it))).
Proof.
  intros Hr. rewrite new_item_fields by assumption.
  now apply get_prop_map.
Qed.

Lemma item_ready_lookup c j col k it :
  cms_ready c -> collections c !! j = Some col -> items col !! k = Some it ->
  item_ready it.
Proof.
  intros (_ & _ & _ & _ & Hr) Hj Hk.
  rewrite Forall_forall in Hr. destruct (Hr col) as [_ Hits].
  { eapply list_elem_of_lookup_2; eauto. }
  rewrite Forall_forall in Hits. apply Hits. eapply list_elem_of_lookup_2; eauto.
Qed.

(** Where a field of the item at position [k] of the collection at
    position [j] ends up. *)
Lemma replaced_host_field targets new f c j col k it key :
  cms f = Some c -> cms_ready c ->
  collections c !! j = Some col -> items col !! k = Some it ->
  exists c' col' it',
    cms (replaced_host targets new f) = Some c' /\
    collections c' !! j = Some col' /\ col_id col' = col_id col /\
    items col' !! k = Some it' /\ item_id it' = item_id it /\
    get_prop key (default [] (fields it'))
    = rewrite_value targets new (get_prop key (default [] (fields it))).
Proof.
  intros Hc Hr Hj Hk.
  exists (with_collections (map (new_collection targets new) (collections c)) c),
    (new_collection targets new col), (new_item targets new it).
  unfold replaced_host. simpl. rewrite Hc. repeat split.
  - now apply lookup_map.
  - now apply lookup_map.
  - apply new_item_id.
  - apply new_item_field. eapply item_ready_lookup; eauto.
Qed.

(** ** Replacement *)

(** C5 (as amended): on a host whose methods all work and whose
    identifiers are distinct, a [replace] past its guard completes; every
    node whose resolved URL was selected then holds the replacement URL in
    both slots, every item field that held a selected URL holds the
    replacement URL in that same field, and the scan it ends with reports
    no occurrence of any selected URL other than the replacement URL
    itself. *)
Theorem replace_rewrites_selected (w : World) :
  host_ready (framer w) ->
  newUrl w <> "" ->
  targets_of (selected w) <> [] ->
  exists w',
    replace w = Returned tt w' /\
    (forall i n,
        canvas (framer w) !! i = Some n ->
        is_target (targets_of (selected w)) (node_url n) = true ->
        exists n',
          canvas (framer w') !! i = Some n' /\
          get_prop "image" (default [] (props n')) = VStr (newUrl w) /\
          get_prop "src" (default [] (props n')) = VStr (newUrl w)) /\
    (forall c j col k it key u,
        cms (framer w) = Some c ->
        collections c !! j = Some col -> items col !! k = Some it ->
        get_prop key (default [] (fields it)) = VStr u ->
        In u (targets_of (selected w)) ->
        exists c' col' it',
          cms (framer w') = Some c' /\
          collections c' !! j = Some col' /\ col_id col' = col_id col /\
          items col' !! k = Some it' /\ item_id it' = item_id it /\
          get_prop key (default [] (fields it')) = VStr (newUrl w)) /\
    (forall u,
        In u (targets_of (selected w)) -> u <> newUrl w ->
        reported_count u (images w') = 0).
Proof.
  intros Hr Hn Ht. destruct (replace_ready w Hr Hn Ht) as (w' & Hw & Hf & Hi).
  exists w'. split; [assumption|]. rewrite Hf, Hi. repeat split.
  - intros i n Hl Hm. exists (new_node (targets_of (selected w)) (newUrl w) n).
    split; [now apply lookup_map | now apply new_node_target].
  - intros c j col k it key u Hc Hj Hk Hg Hu.
    assert (Hcr : cms_ready c).
    { destruct Hr as (_ & _ & c0 & Hc0 & Hcr). congruence. }
    destruct (replaced_host_field (targets_of (selected w)) (newUrl w)
                (framer w) c j col k it key Hc Hcr Hj Hk)
      as (c' & col' & it' & H1 & H2 & H3 & H4 & H5 & H6).
    exists c', col', it'. repeat split; try assumption.
    rewrite H6, Hg. unfold rewrite_value.
    apply is_target_In in Hu. now rewrite Hu.
  - intros u Hu Hne. rewrite reported_count_records.
    now apply replaced_host_no_occurrence.
Qed.

Lemma sample_host_ready : host_ready sample_host.
Proof.
  split; [reflexivity|]. split; [repeat constructor|].
  eexists. split; [reflexivity|]. repeat split; try reflexivity.
  - compute_done.
  - repeat constructor; compute_done.
Qed.


(** On the sample project with [url_a] ticked and [url_new] typed. *)
Lemma replace_rewrites_selected_witness :
  (host_ready (framer world_selected) /\
   newUrl world_selected <> "" /\
   targets_of (selected world_selected) <> []) /\
  exists w',
    replace world_selected = Returned tt w' /\
    (forall i n,
        canvas (framer world_selected) !! i = Some n ->
        is_target (targets_of (selected world_selected)) (node_url n) = true ->
        exists n',
          canvas (framer w') !! i = Some n' /\
          get_prop "image" (default [] (props n')) = VStr (newUrl world_selected) /\
          get_prop "src" (default [] (props n')) = VStr (newUrl world_selected)) /\
    (forall c j col k it key u,
        cms (framer world_selected) = Some c ->
        collections c !! j = Some col -> items col !! k = Some it ->
        get_prop key (default [] (fields it)) = VStr u ->
        In u (targets_of (selected world_selected)) ->
        exists c' col' it',
          cms (framer w') = Some c' /\
          collections c' !! j = Some col' /\ col_id col' = col_id col /\
          items col' !! k = Some it' /\ item_id it' = item_id it /\
          get_prop key (default [] (fields it')) = VStr (newUrl world_selected)) /\
    (forall u,
        In u (targets_of (selected world_selected)) -> u <> newUrl world_selected ->
        reported_count u (images w') = 0).
Proof.
  assert (Hr : host_ready (framer world_selected)) by exact sample_host_ready.
  split; [split; [exact Hr | split; discriminate]|].
  apply (replace_rewrites_selected world_selected Hr); discriminate.
Defined.

(** C5 (as stated) fails, in three ways, each after a scan, a tick and a
    typed URL, and each with a [replace] that completes.
    (1) The replacement URL is itself the selected one: the scan that
    follows still reports the three occurrences of the selected URL.
    (2) A selected URL sits in the [src] slot of a node whose [image] slot
    holds another URL: lines 85-87 look at [props.image || props.src]
    only, so the node is not updated and still holds the selected URL in
    that slot.
    (3) The host has no [setProps] and no [patchItem]: the optional calls
    of lines 88 and 106 are skipped, so the node and the item field that
    held the selected URL still hold it, and the scan that follows still
    reports its two occurrences. *)
Lemma replace_rewrites_selected_counterexample :
  (host_ready (framer world_same_url) /\
   In url_a (targets_of (selected world_same_url)) /\
   replace world_same_url = Returned tt (world_of (replace world_same_url)) /\
   reported_count url_a (images (world_of (replace world_same_url))) = 3 /\
   reported_count url_a (images (world_of (replace world_same_url))) <> 0) /\
  (host_ready (framer world_selected) /\
   In url_a (targets_of (selected world_selected)) /\
   url_a <> newUrl world_selected /\
   canvas (framer world_selected) !! 2
   = Some (mkNode (Some [("image", VStr url_b); ("src", VStr url_a)]) Working) /\
   replace world_selected = Returned tt (world_of (replace world_selected)) /\
   canvas (framer (world_of (replace world_selected))) !! 2
   = Some (mkNode (Some [("image", VStr url_b); ("src", VStr url_a)]) Working)) /\
  (In url_a (targets_of (selected world_read_only_ticked)) /\
   url_a <> newUrl world_read_only_ticked /\
   canvas (framer world_read_only_ticked) !! 0
   = Some (mkNode (Some [("image", VStr url_a)]) Absent) /\
   replace world_read_only_ticked
   = Returned tt (world_of (replace world_read_only_ticked)) /\
   canvas (framer (world_of (replace world_read_only_ticked))) !! 0
   = Some (mkNode (Some [("image", VStr url_a)]) Absent) /\
   cms (framer (world_of (replace world_read_only_ticked)))
   = cms (framer world_read_only_ticked) /\
   reported_count url_a (images (world_of (replace world_read_only_ticked))) = 2).
Proof.
  split; [|split].
  - split; [exact sample_host_ready|].
    split; [left; reflexivity|].
    split; [vm_compute; reflexivity|].
    split; [vm_compute; reflexivity|].
    vm_compute. discriminate.
  - split; [exact sample_host_ready|].
    split; [left; reflexivity|].
    split; [discriminate|].
    split; [reflexivity|].
    split; vm_compute; reflexivity.
  - split; [left; reflexivity|].
    split; [discriminate|].
    split; [reflexivity|].
    split; [vm_compute; reflexivity|].
    split; [vm_compute; reflexivity|].
    split; vm_compute; reflexivity.
Qed.



(** * Further properties of the code *)

(** ** The records of a scan *)

Lemma usages_set_keys u n us :
  map fst (usages_set u n us)
  = if decide (u ∈ map fst us) then map fst us else map fst us ++ [u].
Proof.
  induction us as [|[k m] us IH].
  - cbn [usages_set map fst].
    destruct (decide (u ∈ @nil string)) as [H|]; [inversion H | reflexivity].
  - cbn [usages_set map fst].
    destruct (String.eqb_spec k u) as [->|Hne]; cbn [map fst].
    + destruct (decide (u ∈ u :: map fst us)) as [|Hn];
        [reflexivity | exfalso; apply Hn; left].
    + rewrite IH.
      destruct (decide (u ∈ map fst us)) as [Hi|Hi],
               (decide (u ∈ k :: map fst us)) as [Hj|Hj]; try reflexivity.
      * exfalso. apply Hj. now right.
      * exfalso. apply elem_of_cons in Hj as [->|Hj]; [now apply Hne | now apply Hi].
Qed.

Lemma usages_set_entries u n us e :
  In e (usages_set u n us) -> e = (u, n) \/ In e us.
Proof.
  induction us as [|[k m] us IH]; simpl.
  - intros [<-|[]]. now left.
  - destruct (String.eqb_spec k u) as [->|Hne]; simpl.
    + intros [<-|H]; [now left | right; now right].
    + intros [<-|H]; [right; now left|]. destruct (IH H); [now left | right; now right].
Qed.

Lemma usages_ok_bump u us :
  includes u HOST = true -> usages_ok us -> usages_ok (bump u us).
Proof.
  intros Hu [Hnd Hall]. unfold bump. split.
  - rewrite usages_set_keys. destruct (decide _) as [|Hn]; [assumption|].
    apply NoDup_app. split; [assumption|]. split; [|apply NoDup_singleton].
    intros x Hx Hx'. apply list_elem_of_singleton in Hx'. subst.
    now apply Hn.
  - apply Forall_forall. intros e He. apply list_elem_of_In in He.
    apply usages_set_entries in He as [->|He]; simpl.
    + split; [assumption | lia].
    + rewrite Forall_forall in Hall. apply Hall. now apply list_elem_of_In.
Qed.

Lemma usages_ok_scan_value us v : usages_ok us -> usages_ok (scan_value us v).
Proof.
  intros H. unfold scan_value, qualifies. destruct v; try assumption.
  destruct (includes s HOST) eqn:E; [now apply usages_ok_bump | assumption].
Qed.

Lemma usages_ok_fold {A} (step : list (string * nat) -> A -> list (string * nat)) l us :
  (forall us' x, usages_ok us' -> usages_ok (step us' x)) ->
  usages_ok us -> usages_ok (fold_left step l us).
Proof.
  intros Hs. revert us. induction l as [|x l IH]; intros us H; simpl; auto.
Qed.

Lemma usages_ok_usages_of f : usages_ok (usages_of f).
Proof.
  unfold usages_of. apply usages_ok_fold.
  - intros us it H. unfold scan_item. apply usages_ok_fold; [|assumption].
    intros. now apply usages_ok_scan_value.
  - apply usages_ok_fold.
    + intros us h H. exact (usages_ok_scan_value us (node_url (snd h)) H).
    + split; constructor.
Qed.

Lemma records_urls n us : map url (records n us) = map fst us.
Proof. unfold records. rewrite map_map. reflexivity. Qed.

Lemma records_entry n us r :
  In r (records n us) ->
  In (url r, count r) us /\ size r = size_table n (url r).
Proof.
  unfold records. intros H. apply in_map_iff in H as ([u c] & <- & Hin).
  simpl. now split.
Qed.

(** X1: every record a completed scan produces has a URL containing the
    host substring; nothing else is ever listed. *)
Theorem scan_lists_only_host_urls (w w' : World) (r : ImageUsage) :
  scan w = Returned tt w' ->
  In r (images w') ->
  includes (url r) HOST = true.
Proof.
  intros H Hr. destruct (scan_returned w w' H) as (evs & _ & ->). simpl in Hr.
  apply records_entry in Hr as [Hin _].
  destruct (usages_ok_usages_of (framer w)) as [_ Hall].
  rewrite Forall_forall in Hall. apply list_elem_of_In in Hin.
  now destruct (Hall _ Hin).
Qed.

Lemma scan_lists_only_host_urls_witness :
  (scan world_sample = Returned tt (world_of (scan world_sample)) /\
   In (mkImageUsage url_b 2 None) (images (world_of (scan world_sample)))) /\
  includes url_b HOST = true.
Proof.
  assert (H1 : scan world_sample = Returned tt (world_of (scan world_sample)))
    by (vm_compute; reflexivity).
  assert (H2 : In (mkImageUsage url_b 2 None) (images (world_of (scan world_sample))))
    by (vm_compute; right; left; reflexivity).
  split; [now split|].
  exact (scan_lists_only_host_urls world_sample _ (mkImageUsage url_b 2 None) H1 H2).
Defined.

(** X2: the records of a completed scan have pairwise distinct URLs, so
    the URL is a sound React key for the rows (line 126). *)
Theorem scan_urls_distinct (w w' : World) :
  scan w = Returned tt w' -> NoDup (map url (images w')).
Proof.
  intros H. destruct (scan_returned w w' H) as (evs & _ & ->). simpl.
  rewrite records_urls. apply usages_ok_usages_of.
Qed.

Lemma scan_urls_distinct_witness :
  scan world_sample = Returned tt (world_of (scan world_sample)) /\
  NoDup (map url (images (world_of (scan world_sample)))).
Proof.
  assert (H1 : scan world_sample = Returned tt (world_of (scan world_sample)))
    by (vm_compute; reflexivity).
  split; [exact H1|]. exact (scan_urls_distinct world_sample _ H1).
Defined.

(** X3: every record of a completed scan has a count of at least one: a
    URL is listed only if it was seen. *)
Theorem scan_counts_positive (w w' : World) (r : ImageUsage) :
  scan w = Returned tt w' -> In r (images w') -> 1 <= count r.
Proof.
  intros H Hr. destruct (scan_returned w w' H) as (evs & _ & ->). simpl in Hr.
  apply records_entry in Hr as [Hin _].
  destruct (usages_ok_usages_of (framer w)) as [_ Hall].
  rewrite Forall_forall in Hall. apply list_elem_of_In in Hin.
  now destruct (Hall _ Hin).
Qed.

Lemma scan_counts_positive_witness :
  (scan world_sample = Returned tt (world_of (scan world_sample)) /\
   In (mkImageUsage url_a 3 (Some (Num 1024))) (images (world_of (scan world_sample)))) /\
  1 <= 3.
Proof.
  assert (H1 : scan world_sample = Returned tt (world_of (scan world_sample)))
    by (vm_compute; reflexivity).
  assert (H2 : In (mkImageUsage url_a 3 (Some (Num 1024)))
                 (images (world_of (scan world_sample))))
    by (vm_compute; left; reflexivity).
  split; [now split|].
  exact (scan_counts_positive world_sample _ _ H1 H2).
Defined.

(** ** What a computation leaves untouched *)

Section Keeps.
Context {X : Type} (proj : World -> X).
Hypothesis proj_call : forall c w, proj (with_call c w) = proj w.

Lemma keeps_ret {A} (a : A) : keeps proj (ret a).
Proof. intros w. reflexivity. Qed.

Lemma keeps_throw {A} : keeps proj (@throw A).
Proof. intros w. reflexivity. Qed.

Lemma keeps_log c : keeps proj (log c).
Proof. intros w. apply proj_call. Qed.

Lemma keeps_bind {A B} (m : M A) (k : A -> M B) :
  keeps proj m -> (forall a, keeps proj (k a)) -> keeps proj (bind m k).
Proof.
  intros Hm Hk w. unfold bind. specialize (Hm w).
  destruct (m w) as [a w1|w1]; simpl in *; [|assumption].
  now rewrite Hk.
Qed.

Lemma keeps_for_of {A S} (body : A -> S -> M S) (l : list A) (s : S) :
  (forall x s', keeps proj (body x s')) -> keeps proj (for_of l body s).
Proof.
  intros Hb. revert s. induction l as [|x l IH]; intros s; simpl.
  - apply keeps_ret.
  - apply keeps_bind; [apply Hb | intros s'; apply IH].
Qed.

Lemma keeps_cms_namespace : keeps proj cms_namespace.
Proof. intros w. unfold cms_namespace. destruct (cms (framer w)); reflexivity. Qed.

Lemma keeps_call_getNodes : keeps proj call_getNodes.
Proof.
  intros w. unfold call_getNodes.
  destruct (getNodes (framer w)); simpl; auto.
Qed.

Lemma keeps_call_getCollections : keeps proj call_getCollections.
Proof.
  apply keeps_bind; [apply keeps_cms_namespace|]. intros c.
  destruct (getCollections c); [apply keeps_ret | |];
    (apply keeps_bind; [apply keeps_log | intros _]);
    [apply keeps_throw | apply keeps_ret].
Qed.

Lemma keeps_call_getItems cid : keeps proj (call_getItems cid).
Proof.
  apply keeps_bind; [apply keeps_cms_namespace|]. intros c.
  destruct (getItems c); [apply keeps_ret | |];
    (apply keeps_bind; [apply keeps_log | intros _]);
    [apply keeps_throw | apply keeps_ret].
Qed.

Lemma keeps_scan_collect : keeps proj scan_collect.
Proof.
  unfold scan_collect. apply keeps_bind; [apply keeps_call_getNodes|].
  intros nodes. apply keeps_bind; [apply keeps_call_getCollections|].
  intros cols. apply keeps_for_of. intros col us. unfold scan_collection.
  apply keeps_bind; [apply keeps_call_getItems | intros; apply keeps_ret].
Qed.

Hypothesis proj_framer : forall f w, proj (with_framer f w) = proj w.

Lemma keeps_call_setProps h p : keeps proj (call_setProps h p).
Proof.
  unfold call_setProps. destruct (setProps (snd h)); [apply keeps_ret | |];
    (apply keeps_bind; [apply keeps_log | intros _]); [apply keeps_throw|].
  intros w. apply proj_framer.
Qed.

Lemma keeps_call_patchItem cid iid fs : keeps proj (call_patchItem cid iid fs).
Proof.
  apply keeps_bind; [apply keeps_cms_namespace|]. intros c.
  destruct (patchItem c); [apply keeps_ret | |];
    (apply keeps_bind; [apply keeps_log | intros _]); [apply keeps_throw|].
  intros w. apply proj_framer.
Qed.

Lemma keeps_replace_updates targets new : keeps proj (replace_updates targets new).
Proof.
  unfold replace_updates. apply keeps_bind; [apply keeps_call_getNodes|].
  intros nodes. apply keeps_bind.
  { apply keeps_for_of. intros h []. unfold replace_node.
    destruct (is_target _ _); [apply keeps_call_setProps | apply keeps_ret]. }
  intros _. apply keeps_bind; [apply keeps_call_getCollections|].
  intros cols. apply keeps_for_of. intros col []. unfold replace_collection.
  apply keeps_bind; [apply keeps_call_getItems|].
  intros its. apply keeps_for_of. intros it []. unfold replace_item.
  destruct (snd _); [apply keeps_call_patchItem | apply keeps_ret].
Qed.
End Keeps.

Lemma scan_phases w : scan w = bind scan_collect scan_publish w.
Proof.
  unfold scan, scan_collect, scan_publish, bind.
  destruct (call_getNodes w) as [nodes w1|w1]; [|reflexivity].
  destruct (call_getCollections w1) as [cols w2|w2]; reflexivity.
Qed.

Lemma scan_publish_returns us w :
  scan_publish us w
  = Returned tt (with_selected [] (with_images (records (net w) us) w)).
Proof.
  unfold scan_publish. unfold bind at 1. rewrite Promise_all_resolve. reflexivity.
Qed.

Lemma scan_thrown_collect w w' : scan w = Thrown w' -> scan_collect w = Thrown w'.
Proof.
  rewrite scan_phases. unfold bind.
  destruct (scan_collect w) as [us w1|w1]; [|congruence].
  rewrite scan_publish_returns. discriminate.
Qed.

(** X4: a scan never touches the project: whether it returns or throws,
    the host object graph, the network and the replacement input are as
    before, and every host call it issued is an enumeration call. *)
Theorem scan_never_mutates (w : World) :
  framer (world_of (scan w)) = framer w /\
  net (world_of (scan w)) = net w /\
  newUrl (world_of (scan w)) = newUrl w /\
  exists evs,
    Forall is_enumeration evs /\ calls (world_of (scan w)) = evs ++ calls w.
Proof.
  assert (Hk : forall {X} (proj : World -> X),
             (forall c w, proj (with_call c w) = proj w) ->
             (forall l w, proj (with_images l w) = proj w) ->
             (forall s w, proj (with_selected s w) = proj w) ->
             proj (world_of (scan w)) = proj w).
  { intros X proj H1 H2 H3. rewrite scan_phases. unfold bind.
    pose proof (keeps_scan_collect proj H1 w) as Hc.
    destruct (scan_collect w) as [us w1|w1]; simpl in Hc; [|assumption].
    rewrite scan_publish_returns. simpl. now rewrite H3, H2. }
  repeat split; try (apply Hk; reflexivity).
  apply logs_only_scan. auto.
Qed.

(** X5: a scan throws exactly when [getNodes] throws, or the [cms]
    namespace is missing, or [getCollections] throws, or [getItems] throws
    while there is at least one collection to ask it about.  A throwing
    [getItems] is harmless when [getCollections] is missing or serves no
    collection. *)
Theorem scan_throws_iff (w : World) :
  (exists w', scan w = Thrown w') <->
  (getNodes (framer w) = Broken \/
   cms (framer w) = None \/
   exists c, cms (framer w) = Some c /\
     (getCollections c = Broken \/
      (getCollections c = Working /\ getItems c = Broken /\ collections c <> []))).
Proof.
  pose proof (scan_outcome w) as Ho. unfold scan_completes in Ho. split.
  - intros [w' Hw].
    destruct (getNodes (framer w)) eqn:Hn; [|now left|];
      (destruct (cms (framer w)) as [c|] eqn:Hc; [|right; now left]);
      right; right; exists c; (split; [reflexivity|]);
      (destruct (getCollections c) eqn:Hgc;
       [destruct Ho as (evs & _ & Ho); congruence | now left |]);
      (destruct (getItems c) eqn:Hgi;
       [destruct Ho as (evs & _ & Ho); congruence | |
        destruct Ho as (evs & _ & Ho); congruence]);
      (destruct (collections c) eqn:Hcs;
       [destruct Ho as (evs & _ & Ho); congruence |]);
      right; repeat split; discriminate.
  - intros [Hn|[Hc|(c & Hc & [Hgc|(Hgc & Hgi & Hcs)])]].
    + rewrite Hn in Ho. exact Ho.
    + rewrite Hc in Ho. destruct (getNodes (framer w)); exact Ho.
    + rewrite Hc, Hgc in Ho. destruct (getNodes (framer w)); exact Ho.
    + rewrite Hc, Hgc, Hgi in Ho.
      destruct (collections c); [contradiction|].
      destruct (getNodes (framer w)); exact Ho.
Qed.

Lemma replace_noop_run w :
  newUrl w = "" \/ targets_of (selected w) = [] -> replace w = Returned tt w.
Proof.
  intros H. unfold replace, bind, read.
  destruct H as [-> | ->]; simpl; [reflexivity|].
  now rewrite orb_true_r.
Qed.

Lemma scan_thrown_ui w w' :
  scan w = Thrown w' -> ui w' = ui w /\ framer w' = framer w.
Proof.
  intros H. apply scan_thrown_collect in H.
  pose proof (keeps_scan_collect ui (fun _ _ => eq_refl) w) as H1.
  pose proof (keeps_scan_collect framer (fun _ _ => eq_refl) w) as H2.
  rewrite H in H1, H2. now split.
Qed.

Lemma replace_thrown_ui w w' : replace w = Thrown w' -> ui w' = ui w.
Proof.
  intros H.
  destruct (String.eqb_spec (newUrl w) "") as [He|Hne].
  { rewrite replace_noop_run in H by now left. discriminate. }
  destruct (targets_of (selected w)) as [|t ts] eqn:Ht.
  { rewrite replace_noop_run in H by now right. discriminate. }
  rewrite replace_run in H by (try assumption; rewrite Ht; discriminate).
  rewrite Ht in H.
  pose proof (keeps_replace_updates ui (fun _ _ => eq_refl) (fun _ _ => eq_refl)
                (t :: ts) (newUrl w) w) as Hu.
  unfold bind at 1 in H.
  destruct (replace_updates (t :: ts) (newUrl w) w) as [[] w1|w1]; simpl in Hu.
  - unfold bind at 1 in H. destruct (scan w1) as [[] w2|w2] eqn:Hs.
    + discriminate H.
    + injection H as <-. apply scan_thrown_ui in Hs as [Hs _]. congruence.
  - injection H as <-. exact Hu.
Qed.

(** X6: a scan that throws publishes nothing: the records, the replacement
    input and the selection are exactly as before it started, so the list
    on screen is the stale one. *)
Theorem scan_failure_keeps_state (w w' : World) :
  scan w = Thrown w' -> ui w' = ui w /\ framer w' = framer w.
Proof. apply scan_thrown_ui. Qed.

Lemma scan_failure_keeps_state_witness :
  scan world_broken_nodes = Thrown (world_of (scan world_broken_nodes)) /\
  ui (world_of (scan world_broken_nodes)) = ui world_broken_nodes /\
  framer (world_of (scan world_broken_nodes)) = framer world_broken_nodes.
Proof.
  assert (H : scan world_broken_nodes = Thrown (world_of (scan world_broken_nodes)))
    by (vm_compute; reflexivity).
  split; [exact H|]. exact (scan_failure_keeps_state world_broken_nodes _ H).
Defined.

(** X7: a [replace] that throws, in an update or in the rescan, leaves the
    three state cells as they were: no new records, the selection still
    ticked, the replacement URL still in the input. *)
Theorem replace_failure_keeps_state (w w' : World) :
  replace w = Thrown w' -> ui w' = ui w.
Proof. apply replace_thrown_ui. Qed.

Lemma replace_failure_keeps_state_witness :
  replace world_broken_setProps = Thrown (world_of (replace world_broken_setProps)) /\
  ui (world_of (replace world_broken_setProps)) = ui world_broken_setProps.
Proof.
  assert (H : replace world_broken_setProps
              = Thrown (world_of (replace world_broken_setProps)))
    by (vm_compute; reflexivity).
  split; [exact H|]. exact (replace_failure_keeps_state world_broken_setProps _ H).
Defined.

(** ** The selection and the replace button *)

Lemma selected_get_set_eq u v s : selected_get u (selected_set u v s) = v.
Proof.
  induction s as [|[k b] s IH]; simpl.
  - now rewrite String.eqb_refl.
  - destruct (k =? u) eqn:E; simpl; rewrite E; auto.
Qed.

Lemma selected_get_set_ne u u' v s :
  u <> u' -> selected_get u' (selected_set u v s) = selected_get u' s.
Proof.
  intros Hne. induction s as [|[k b] s IH]; simpl.
  - destruct (String.eqb_spec u u'); [contradiction | reflexivity].
  - destruct (String.eqb_spec k u) as [->|Hk]; simpl.
    + destruct (String.eqb_spec u u'); [contradiction | reflexivity].
    + destruct (k =? u'); auto.
Qed.

Lemma selected_set_keys u v s k :
  In k (map fst (selected_set u v s)) <-> k = u \/ In k (map fst s).
Proof.
  induction s as [|[k' b] s IH]; simpl.
  - intuition.
  - destruct (String.eqb_spec k' u) as [->|Hne]; simpl; [intuition|].
    rewrite IH. intuition.
Qed.

Lemma selected_set_NoDup u v s :
  NoDup (map fst s) -> NoDup (map fst (selected_set u v s)).
Proof.
  induction s as [|[k b] s IH]; simpl; intros Hnd.
  - apply NoDup_singleton.
  - apply NoDup_cons in Hnd as [Hk Hnd].
    destruct (String.eqb_spec k u) as [->|Hne]; simpl.
    + apply NoDup_cons. now split.
    + apply NoDup_cons. split; [|now apply IH].
      intros Hin. apply list_elem_of_In, selected_set_keys in Hin as [->|Hin];
        [now apply Hne | apply Hk; now apply list_elem_of_In].
Qed.

Lemma selected_get_true_key k s : selected_get k s = true -> In k (map fst s).
Proof.
  induction s as [|[k' b] s IH]; simpl; [discriminate|].
  destruct (String.eqb_spec k' k); [now left | right; auto].
Qed.

Lemma targets_of_iff k s : In k (targets_of s) <-> selected_get k s = true.
Proof.
  unfold targets_of. rewrite <- list_elem_of_In, list_elem_of_filter, list_elem_of_In.
  split; [now intros [H _] | intros H; split; [assumption|]].
  now apply selected_get_true_key.
Qed.

(** X8: the URLs [replace] acts on are exactly the rows whose checkbox is
    shown checked: [u] is among the targets of line 80 if and only if
    [!!selected[u]] of line 128 is true. *)
Theorem targets_are_checked_rows (w : World) (u : string) :
  In u (targets_of (selected w)) <-> checked u w = true.
Proof. apply targets_of_iff. Qed.

(** X9: the checkbox handler of line 129 sets the one row it is given and
    no other: afterwards row [u] reads [v] and every other row reads as
    before. *)
Theorem toggle_sets_one_row (w : World) (u u' : string) (v : bool) :
  checked u (world_of (onToggle u v w)) = v /\
  (u' <> u -> checked u' (world_of (onToggle u v w)) = checked u' w).
Proof.
  unfold checked, onToggle. simpl. split.
  - apply selected_get_set_eq.
  - intros Hne. apply selected_get_set_ne. congruence.
Qed.

Lemma toggle_sets_one_row_witness :
  url_b <> url_a /\
  checked url_a (world_of (onToggle url_a true world_selected)) = true /\
  (url_b <> url_a ->
   checked url_b (world_of (onToggle url_a true world_selected))
   = checked url_b world_selected).
Proof.
  split; [discriminate|].
  exact (toggle_sets_one_row world_selected url_a url_b true).
Defined.

Lemma existsb_snd_selected s :
  NoDup (map fst s) ->
  existsb (fun b : bool => b) (map snd s) = true <-> targets_of s <> [].
Proof.
  intros Hnd. split.
  - intros H. apply existsb_exists in H as (b & Hin & Hb). subst b.
    apply in_map_iff in Hin as ([k b] & Hb & Hin). simpl in Hb. subst b.
    assert (Hg : selected_get k s = true).
    { clear -Hnd Hin. induction s as [|[k' b'] s IH]; [destruct Hin|].
      simpl in *. apply NoDup_cons in Hnd as [Hk Hnd].
      destruct Hin as [Heq|Hin].
      - injection Heq as -> ->. now rewrite String.eqb_refl.
      - destruct (String.eqb_spec k' k) as [->|_]; [|auto].
        exfalso. apply Hk, list_elem_of_In, in_map_iff. now exists (k, true). }
    apply targets_of_iff in Hg. intros He. rewrite He in Hg. destruct Hg.
  - intros H. destruct (targets_of s) as [|k ts] eqn:E; [contradiction|].
    assert (Hk : In k (targets_of s)) by (rewrite E; now left).
    apply targets_of_iff in Hk. apply existsb_exists. exists true. split; [|reflexivity].
    clear -Hk. induction s as [|[k' b'] s IH]; [discriminate|]. simpl in *.
    destruct (k' =? k); [left; assumption | right; auto].
Qed.

(** With each key once, the button is disabled exactly when the guard of
    line 81 would return at once. *)
Lemma disabled_iff_guard w :
  NoDup (map fst (selected w)) ->
  replace_disabled w = true <-> newUrl w = "" \/ targets_of (selected w) = [].
Proof.
  intros Hnd. unfold replace_disabled. rewrite orb_true_iff, !negb_true_iff.
  simpl. rewrite negb_false_iff, String.eqb_eq. split.
  - intros [Hn|Hs]; [now left | right].
    destruct (targets_of (selected w)) eqn:Et; [reflexivity|].
    assert (Ht : existsb (fun b : bool => b) (map snd (selected w)) = true).
    { apply (existsb_snd_selected (selected w) Hnd). rewrite Et. discriminate. }
    congruence.
  - intros [Hn|Ht]; [now left | right].
    destruct (existsb (fun b : bool => b) (map snd (selected w))) eqn:E;
      [|reflexivity].
    apply (existsb_snd_selected (selected w) Hnd) in E. contradiction.
Qed.

Lemma replace_selected_cases w :
  ui (world_of (replace w)) = ui w \/
  (selected (world_of (replace w)) = [] /\
   exists w1, images (world_of (replace w)) = records (net w1) (usages_of (framer w1))).
Proof.
  destruct (replace w) as [[] w'|w'] eqn:H.
  - destruct (String.eqb_spec (newUrl w) "") as [He|Hne].
    { rewrite replace_noop_run in H by now left. injection H as <-. now left. }
    destruct (targets_of (selected w)) as [|t ts] eqn:Ht.
    { rewrite replace_noop_run in H by now right. injection H as <-. now left. }
    right. rewrite replace_run in H by (try assumption; rewrite Ht; discriminate).
    unfold bind at 1 in H.
    destruct (replace_updates _ _ w) as [[] w1|w1]; [|discriminate H].
    unfold bind at 1 in H. destruct (scan w1) as [[] w2|w2] eqn:Hs; [|discriminate H].
    injection H as <-. destruct (scan_returned w1 w2 Hs) as (evs & _ & ->).
    simpl. split; [reflexivity | now exists w1].
  - left. simpl. now apply replace_thrown_ui.
Qed.

Lemma ui_ok_same w w' : ui w' = ui w -> ui_ok w -> ui_ok w'.
Proof.
  unfold ui, ui_ok. intros H. injection H as Hi _ Hs. now rewrite Hi, Hs.
Qed.

Lemma ui_ok_records n f (w : World) :
  selected w = [] -> images w = records n (usages_of f) -> ui_ok w.
Proof.
  intros Hs Hi. unfold ui_ok. rewrite Hs, Hi. simpl. split; [constructor|].
  split; [intros ? []|]. intros k Hk. rewrite records_urls in Hk.
  destruct (usages_ok_usages_of f) as [_ Hall]. rewrite Forall_forall in Hall.
  apply in_map_iff in Hk as (e & <- & He). apply list_elem_of_In in He.
  now destruct (Hall e He).
Qed.

Lemma ui_ok_scan w : ui_ok w -> ui_ok (world_of (scan w)).
Proof.
  intros Hok. destruct (scan w) as [[] w'|w'] eqn:H; simpl.
  - destruct (scan_returned w w' H) as (evs & _ & ->).
    now apply (ui_ok_records (net w) (framer w)).
  - apply scan_thrown_ui in H as [H _]. now apply (ui_ok_same w).
Qed.

Lemma ui_ok_replace w : ui_ok w -> ui_ok (world_of (replace w)).
Proof.
  intros Hok. destruct (replace_selected_cases w) as [H|(Hs & w1 & Hi)].
  - now apply (ui_ok_same w).
  - now apply (ui_ok_records (net w1) (framer w1)).
Qed.

Lemma ui_ok_toggle u v w :
  In u (map url (images w)) -> ui_ok w -> ui_ok (world_of (onToggle u v w)).
Proof.
  intros Hu (Hnd & Hsub & Hh). unfold ui_ok, onToggle. simpl.
  split; [now apply selected_set_NoDup|]. split; [|assumption].
  intros k Hk. apply selected_set_keys in Hk as [->|Hk]; auto.
Qed.

Lemma reachable_ui_ok w : reachable w -> ui_ok w.
Proof.
  induction 1 as [f n|w e Hr IH He].
  - unfold ui_ok, mounted. simpl. split; [constructor|]. split; intros ? [].
  - destruct e; simpl in *.
    + now apply ui_ok_scan.
    + now apply ui_ok_toggle.
    + exact IH.
    + now apply ui_ok_replace.
    + exact IH.
    + exact IH.
Qed.

(** X10: in every state the component can reach through its handlers,
    whatever the project and the network do in between, each selected URL
    is a URL of a listed row and contains the host substring: the
    selection never holds a URL the last scan did not report. *)
Theorem reachable_targets_listed (w : World) (u : string) :
  reachable w ->
  In u (targets_of (selected w)) ->
  In u (map url (images w)) /\ includes u HOST = true.
Proof.
  intros Hr Hu. destruct (reachable_ui_ok w Hr) as (_ & Hsub & Hh).
  apply targets_of_iff, selected_get_true_key in Hu.
  split; [auto | auto].
Qed.

Lemma world_ui_typed_reachable : reachable world_ui_typed.
Proof.
  apply reach_step; [|exact I].
  apply reach_step; [|vm_compute; left; reflexivity].
  apply reach_step; [|exact I].
  apply reach_mounted.
Qed.

Lemma reachable_targets_listed_witness :
  (reachable world_ui_typed /\ In url_a (targets_of (selected world_ui_typed))) /\
  In url_a (map url (images world_ui_typed)) /\ includes url_a HOST = true.
Proof.
  assert (H : In url_a (targets_of (selected world_ui_typed)))
    by (vm_compute; left; reflexivity).
  split; [split; [exact world_ui_typed_reachable | exact H]|].
  exact (reachable_targets_listed world_ui_typed url_a world_ui_typed_reachable H).
Defined.

(** X11: in every reachable state the replace button is disabled (line
    149) exactly when [replace] would return at once (line 81): the
    replacement input is empty or no row is ticked. *)
Theorem button_matches_guard (w : World) :
  reachable w ->
  (replace_disabled w = true <-> newUrl w = "" \/ targets_of (selected w) = []).
Proof.
  intros Hr. apply disabled_iff_guard. now destruct (reachable_ui_ok w Hr).
Qed.

Lemma button_matches_guard_witness :
  reachable world_ui_ticked /\
  (replace_disabled world_ui_ticked = true <->
   newUrl world_ui_ticked = "" \/ targets_of (selected world_ui_ticked) = []).
Proof.
  assert (H : reachable world_ui_ticked).
  { apply reach_step; [|vm_compute; left; reflexivity].
    apply reach_step; [|exact I]. apply reach_mounted. }
  split; [exact H|]. exact (button_matches_guard world_ui_ticked H).
Defined.

(** X12: a completed [replace] leaves a state on which [replace] does
    nothing: run again at once, it returns with the world unchanged. *)
Theorem replace_then_replace (w w' : World) :
  replace w = Returned tt w' -> replace w' = Returned tt w'.
Proof.
  intros H.
  destruct (String.eqb_spec (newUrl w) "") as [He|Hne].
  { assert (Hw := H). rewrite replace_noop_run in Hw by now left.
    injection Hw as <-. exact H. }
  destruct (targets_of (selected w)) as [|t ts] eqn:Ht.
  { assert (Hw := H). rewrite replace_noop_run in Hw by now right.
    injection Hw as <-. exact H. }
  rewrite replace_run in H by (try assumption; rewrite Ht; discriminate).
  unfold bind at 1 in H.
  destruct (replace_updates _ _ w) as [[] w1|w1]; [|discriminate H].
  unfold bind at 1 in H. destruct (scan w1) as [[] w2|w2]; [|discriminate H].
  injection H as <-. apply replace_noop_run. now left.
Qed.

Lemma replace_then_replace_witness :
  replace world_selected = Returned tt (world_of (replace world_selected)) /\
  replace (world_of (replace world_selected))
  = Returned tt (world_of (replace world_selected)).
Proof.
  assert (H : replace world_selected = Returned tt (world_of (replace world_selected)))
    by (vm_compute; reflexivity).
  split; [exact H|]. exact (replace_then_replace world_selected _ H).
Defined.

(** X13: a completed scan always leaves the replace button disabled and
    [replace] without effect, until a row is ticked again. *)
Theorem scan_disables_replace (w w' : World) :
  scan w = Returned tt w' ->
  replace_disabled w' = true /\ replace w' = Returned tt w'.
Proof.
  intros H. destruct (scan_returned w w' H) as (evs & _ & ->). split.
  - unfold replace_disabled. simpl. apply orb_true_r.
  - apply replace_noop_run. right. reflexivity.
Qed.

Lemma scan_disables_replace_witness :
  scan world_selected = Returned tt (world_of (scan world_selected)) /\
  replace_disabled (world_of (scan world_selected)) = true /\
  replace (world_of (scan world_selected))
  = Returned tt (world_of (scan world_selected)).
Proof.
  assert (H : scan world_selected = Returned tt (world_of (scan world_selected)))
    by (vm_compute; reflexivity).
  split; [exact H|]. exact (scan_disables_replace world_selected _ H).
Defined.

(** ** More on scans and replacements *)

(** X14: a scan recomputes everything from scratch: the records it
    publishes depend on the project and on the network only, not on the
    records, selection, input or call log it started from. *)
Theorem scan_from_scratch (w1 w2 w1' : World) :
  framer w1 = framer w2 -> net w1 = net w2 ->
  scan w1 = Returned tt w1' ->
  exists w2', scan w2 = Returned tt w2' /\ images w2' = images w1'.
Proof.
  intros Hf Hn H. pose proof (scan_outcome w1) as H1. pose proof (scan_outcome w2) as H2.
  rewrite <- Hf in H2. destruct (scan_completes (framer w1)).
  - destruct H1 as (e1 & _ & H1), H2 as (e2 & _ & H2).
    eexists. split; [exact H2|]. rewrite H1 in H. injection H as <-.
    simpl. now rewrite Hf, Hn.
  - destruct H1 as (w' & H1). congruence.
Qed.

Lemma scan_from_scratch_witness :
  (framer world_sample = framer world_selected /\
   net world_sample = net world_selected /\
   scan world_sample = Returned tt (world_of (scan world_sample))) /\
  exists w2',
    scan world_selected = Returned tt w2' /\
    images w2' = images (world_of (scan world_sample)).
Proof.
  assert (H1 : framer world_sample = framer world_selected) by reflexivity.
  assert (H2 : net world_sample = net world_selected) by reflexivity.
  assert (H3 : scan world_sample = Returned tt (world_of (scan world_sample)))
    by (vm_compute; reflexivity).
  split; [now repeat split|].
  exact (scan_from_scratch world_sample world_selected _ H1 H2 H3).
Defined.

Lemma keeps_framer_nodes_absent targets new hs :
  Forall (fun h : nat * Node => setProps (snd h) = Absent) hs ->
  keeps framer (for_of hs (replace_node targets new) tt).
Proof.
  induction 1 as [|h hs Hh _ IH]; simpl; [apply keeps_ret|].
  apply keeps_bind; [|intros []; exact IH].
  unfold replace_node, call_setProps. rewrite Hh.
  destruct (is_target _ _); apply keeps_ret.
Qed.

Lemma keeps_framer_patch_absent cid iid fs w :
  (forall c, cms (framer w) = Some c -> patchItem c = Absent) ->
  framer (world_of (call_patchItem cid iid fs w)) = framer w.
Proof.
  intros Hp. unfold call_patchItem, bind, cms_namespace.
  destruct (cms (framer w)) as [c|]; [|reflexivity].
  now rewrite (Hp c eq_refl).
Qed.

Lemma handles_of_canvas (P : Node -> Prop) l k :
  Forall P l -> Forall (fun h : nat * Node => P (snd h)) (imap (fun j => pair (k + j)) l).
Proof.
  revert k. induction l as [|n l IH]; intros k H; [constructor|].
  apply Forall_cons in H as [Hn Hl]. simpl. constructor; [assumption|].
  rewrite imap_shift. now apply IH.
Qed.

(** On a host without mutation methods every step of the update loops
    leaves the host as it is. *)
Lemma replace_updates_read_only targets new w :
  Forall (fun n => setProps n = Absent) (canvas (framer w)) ->
  (forall c, cms (framer w) = Some c -> patchItem c = Absent) ->
  framer (world_of (replace_updates targets new w)) = framer w.
Proof.
  intros Hs Hp. unfold replace_updates. unfold bind at 1.
  pose proof (keeps_call_getNodes framer (fun _ _ => eq_refl) w) as Hg.
  destruct (call_getNodes w) as [hs w1|w1] eqn:Hn; simpl in Hg; [|assumption].
  assert (Hhs : Forall (fun h : nat * Node => setProps (snd h) = Absent) hs).
  { unfold call_getNodes in Hn. destruct (getNodes (framer w)).
    - injection Hn as <- _. constructor.
    - discriminate.
    - injection Hn as <- _. exact (handles_of_canvas _ _ 0 Hs). }
  unfold bind at 1.
  pose proof (keeps_framer_nodes_absent targets new hs Hhs w1) as Hl.
  destruct (for_of hs _ tt w1) as [[] w2|w2]; simpl in Hl; [|simpl; congruence].
  assert (Hinv : forall cols w3,
             framer w3 = framer w ->
             framer (world_of (for_of cols (replace_collection targets new) tt w3))
             = framer w).
  { induction cols as [|col cols IHc]; intros w3 H3; simpl; [assumption|].
    unfold bind at 1. unfold replace_collection at 1. unfold bind at 1.
    pose proof (keeps_call_getItems framer (fun _ _ => eq_refl) (col_id col) w3) as Hi.
    destruct (call_getItems (col_id col) w3) as [its w4|w4]; simpl in Hi;
      [|simpl; congruence].
    assert (Hits : forall its w5,
               framer w5 = framer w ->
               framer (world_of (for_of its (replace_item targets new (col_id col)) tt w5))
               = framer w).
    { clear -Hp. induction its as [|it its IHi]; intros w5 H5; simpl; [assumption|].
      unfold bind at 1. unfold replace_item at 1.
      destruct (snd _).
      - pose proof (keeps_framer_patch_absent (col_id col) (item_id it)
                      (fst (replace_fields targets new (default [] (fields it)))) w5)
          as Hk.
        rewrite H5 in Hk. specialize (Hk Hp).
        destruct (call_patchItem _ _ _ w5) as [[] w6|w6]; simpl in Hk.
        + apply IHi. congruence.
        + simpl. congruence.
      - unfold ret. now apply IHi. }
    specialize (Hits its w4 ltac:(congruence)).
    destruct (for_of its _ tt w4) as [[] w6|w6]; simpl in Hits.
    - now apply IHc.
    - exact Hits. }
  unfold bind at 1.
  pose proof (keeps_call_getCollections framer (fun _ _ => eq_refl) w2) as Hc.
  destruct (call_getCollections w2) as [cols w3|w3]; simpl in Hc; [|simpl; congruence].
  apply Hinv. congruence.
Qed.

(** X15: on a host with no mutation method (no node has [setProps], the
    namespace has no [patchItem]) a [replace], whatever is selected and
    whether it returns or throws, leaves the project exactly as it was:
    the optional calls of lines 88 and 106 are silently skipped. *)
Theorem replace_read_only_host (w : World) :
  Forall (fun n => setProps n = Absent) (canvas (framer w)) ->
  (forall c, cms (framer w) = Some c -> patchItem c = Absent) ->
  framer (world_of (replace w)) = framer w.
Proof.
  intros Hs Hp.
  destruct (String.eqb_spec (newUrl w) "") as [He|Hne].
  { rewrite replace_noop_run by now left. reflexivity. }
  destruct (targets_of (selected w)) as [|t ts] eqn:Ht.
  { rewrite replace_noop_run by now right. reflexivity. }
  rewrite replace_run by (try assumption; rewrite Ht; discriminate). rewrite Ht.
  pose proof (replace_updates_read_only (t :: ts) (newUrl w) w Hs Hp) as Hu.
  unfold bind at 1.
  destruct (replace_updates (t :: ts) (newUrl w) w) as [[] w1|w1]; simpl in Hu;
    [|assumption].
  unfold bind at 1.
  pose proof (keeps_scan_collect framer (fun _ _ => eq_refl) w1) as Hk.
  rewrite scan_phases. unfold bind at 1.
  destruct (scan_collect w1) as [us w2|w2]; simpl in Hk; [|simpl; congruence].
  rewrite scan_publish_returns. simpl. congruence.
Qed.

Lemma replace_read_only_host_witness :
  (Forall (fun n => setProps n = Absent) (canvas (framer world_read_only)) /\
   (forall c, cms (framer world_read_only) = Some c -> patchItem c = Absent) /\
   targets_of (selected world_read_only) = [url_a]) /\
  framer (world_of (replace world_read_only)) = framer world_read_only.
Proof.
  assert (H1 : Forall (fun n => setProps n = Absent) (canvas (framer world_read_only)))
    by (repeat constructor).
  assert (H2 : forall c, cms (framer world_read_only) = Some c -> patchItem c = Absent).
  { intros c Hc. injection Hc as <-. reflexivity. }
  split; [split; [exact H1 | split; [exact H2 | reflexivity]]|].
  exact (replace_read_only_host world_read_only H1 H2).
Defined.

(** ** Counts before and after a replacement *)

Lemma length_filter_occ {A} (f : A -> value) u l :
  length (filter (fun x => is_occurrence u (f x) = true) l)
  = sum_list (map (fun x => occ u (f x)) l).
Proof.
  induction l as [|x l IH]; [reflexivity|].
  rewrite length_filter_cons, bool_decide_if, IH. reflexivity.
Qed.

Lemma sum_list_app' l1 l2 : sum_list (l1 ++ l2) = sum_list l1 + sum_list l2.
Proof. induction l1 as [|x l1 IH]; simpl; [reflexivity | rewrite IH; lia]. Qed.

Lemma sum_list_concat_map {A} (g : A -> list nat) l :
  sum_list (concat (map g l)) = sum_list (map (fun x => sum_list (g x)) l).
Proof.
  induction l as [|x l IH]; simpl; [reflexivity|].
  now rewrite sum_list_app', IH.
Qed.

(** The number a usage table holds for [u] is the number of sighted values
    that are occurrences of [u]. *)
Lemma tally_sighted f u :
  tally u (usages_of f) = sum_list (map (occ u) (sighted f)).
Proof.
  rewrite tally_usages_of. unfold sighted. rewrite map_app, sum_list_app'. f_equal.
  - unfold node_occurrences. rewrite length_filter_occ, map_map. reflexivity.
  - unfold field_occurrences. rewrite concat_map, map_map, sum_list_concat_map.
    f_equal. apply map_ext. intros it.
    unfold item_occurrences. rewrite (length_filter_occ (fun v => v)). reflexivity.
Qed.

Lemma node_url_new_node targets new n :
  new <> "" -> node_url (new_node targets new n) = rewrite_value targets new (node_url n).
Proof.
  intros Hne. unfold new_node, rewrite_value.
  destruct (is_target targets (node_url n)); [|reflexivity].
  now apply node_url_both_slots.
Qed.

Lemma values_new_item targets new it :
  item_ready it ->
  values (default [] (fields (new_item targets new it)))
  = map (rewrite_value targets new) (values (default [] (fields it))).
Proof.
  intros Hr. rewrite new_item_fields by assumption.
  unfold values. rewrite !map_map. reflexivity.
Qed.

Lemma scanned_items_ready f c :
  cms f = Some c -> getCollections c = Working -> getItems c = Working ->
  NoDup (map col_id (collections c)) ->
  scanned_items f = concat (map items (collections c)).
Proof.
  intros Hc Hgc Hgi Hnd. unfold scanned_items. rewrite Hc, Hgc, Hgi. f_equal.
  apply map_ext_in. intros col Hin. now apply host_getItems_member.
Qed.

(** On a ready host the update loops act on the sighted values as one
    [map]: each value equal to a selected URL becomes the replacement URL,
    every other value stays. *)
Lemma sighted_replaced targets new f :
  host_ready f -> new <> "" ->
  sighted (replaced_host targets new f) = map (rewrite_value targets new) (sighted f).
Proof.
  intros (Hg & _ & c & Hc & Hgc & Hgi & Hp & Hnd & Hr) Hne.
  unfold sighted. rewrite map_app. f_equal.
  - unfold scanned_nodes, replaced_host. simpl. rewrite Hg, !map_map.
    apply map_ext. intros n. now apply node_url_new_node.
  - rewrite (scanned_items_ready f c) by assumption.
    rewrite (scanned_items_ready (replaced_host targets new f)
               (with_collections (map (new_collection targets new) (collections c)) c)).
    + simpl. rewrite !concat_map, !map_map. do 2 f_equal.
      apply map_ext_in. intros col Hcol. simpl. rewrite !map_map.
      apply map_ext_in. intros it Hit. apply values_new_item.
      rewrite Forall_forall in Hr. apply list_elem_of_In in Hcol.
      destruct (Hr col Hcol) as [_ Hits]. rewrite Forall_forall in Hits.
      apply Hits. now apply list_elem_of_In.
    + unfold replaced_host. simpl. now rewrite Hc.
    + assumption.
    + assumption.
    + simpl. now rewrite map_col_id_new.
Qed.

Lemma occ_rewrite_other targets new u v :
  ~ In u targets -> u <> new ->
  occ u (rewrite_value targets new v) = occ u v.
Proof.
  intros Hu Hne. unfold occ, rewrite_value.
  destruct (is_target targets v) eqn:Ht; [|reflexivity].
  destruct (is_occurrence u (VStr new)) eqn:E1.
  { apply is_occurrence_inv in E1. congruence. }
  destruct (is_occurrence u v) eqn:E2; [|reflexivity].
  apply is_occurrence_inv in E2. subst v. apply is_target_In in Ht. contradiction.
Qed.

Lemma occ_string_sum targets s :
  NoDup targets -> In s targets -> includes s HOST = true ->
  sum_list (map (fun t => occ t (VStr s)) targets) = 1.
Proof.
  intros Hnd Hin Hs. induction targets as [|t ts IH]; [destruct Hin|].
  apply NoDup_cons in Hnd as [Ht Hnd]. simpl.
  unfold occ at 1, is_occurrence. simpl. rewrite Hs.
  destruct (String.eqb_spec s t) as [->|Hne].
  - replace (sum_list _) with 0; [reflexivity|]. symmetry.
    clear -Ht Hs. induction ts as [|t' ts IH]; [reflexivity|]. simpl.
    unfold occ at 1, is_occurrence. simpl. rewrite Hs.
    destruct (String.eqb_spec t t') as [->|_].
    + exfalso. apply Ht. left.
    + apply IH. intros H. apply Ht. now right.
  - destruct Hin as [->|Hin]; [contradiction|]. now apply IH.
Qed.

Lemma occ_not_target_sum targets v :
  is_target targets v = false ->
  sum_list (map (fun t => occ t v) targets) = 0.
Proof.
  intros Ht.
  assert (H : forall ts, (forall t, In t ts -> In t targets) ->
                         sum_list (map (fun t => occ t v) ts) = 0).
  { induction ts as [|t ts IH]; intros Hsub; [reflexivity|]. simpl.
    rewrite IH by (intros; apply Hsub; now right).
    unfold occ. destruct (is_occurrence t v) eqn:E; [|reflexivity].
    apply is_occurrence_inv in E. subst v.
    assert (In t targets) by (apply Hsub; now left).
    apply is_target_In in H. congruence. }
  now apply H.
Qed.

Lemma occ_rewrite_new targets new v :
  NoDup targets -> (forall t, In t targets -> includes t HOST = true) ->
  includes new HOST = true -> ~ In new targets ->
  occ new (rewrite_value targets new v)
  = occ new v + sum_list (map (fun t => occ t v) targets).
Proof.
  intros Hnd Hq Hnew Hnin. unfold rewrite_value.
  destruct (is_target targets v) eqn:Ht.
  - destruct v; try discriminate Ht. apply is_target_In in Ht.
    rewrite (occ_string_sum targets s) by auto.
    unfold occ, is_occurrence. simpl. rewrite Hnew, String.eqb_refl.
    destruct (includes s HOST); [|reflexivity].
    destruct (String.eqb_spec s new) as [->|_]; [contradiction | reflexivity].
  - rewrite occ_not_target_sum by assumption. lia.
Qed.

Lemma sum_list_map_add {A} (a b : A -> nat) l :
  sum_list (map (fun x => a x + b x) l) = sum_list (map a l) + sum_list (map b l).
Proof. induction l as [|x l IH]; simpl; [reflexivity | rewrite IH; lia]. Qed.

Lemma sum_list_swap {A B} (g : A -> B -> nat) (la : list A) (lb : list B) :
  sum_list (map (fun x => sum_list (map (fun t => g x t) lb)) la)
  = sum_list (map (fun t => sum_list (map (fun x => g x t) la)) lb).
Proof.
  induction la as [|x la IH]; simpl.
  - induction lb as [|t lb IHb]; simpl; [reflexivity | now rewrite <- IHb].
  - rewrite IH, <- sum_list_map_add. reflexivity.
Qed.

(** The records after a replacement, against a scan of the project as it
    was before. *)
Lemma replace_and_scan_before w :
  host_ready (framer w) -> newUrl w <> "" -> targets_of (selected w) <> [] ->
  exists w' w0,
    replace w = Returned tt w' /\ scan w = Returned tt w0 /\
    (forall u,
        reported_count u (images w0) = sum_list (map (occ u) (sighted (framer w)))) /\
    (forall u,
        reported_count u (images w')
        = sum_list (map (fun v => occ u (rewrite_value (targets_of (selected w))
                                                      (newUrl w) v))
                      (sighted (framer w)))).
Proof.
  intros Hr Hn Ht. destruct (replace_ready w Hr Hn Ht) as (w' & Hw & _ & Hi).
  destruct (scan_completes_returns w) as (evs & _ & Hs).
  { destruct Hr as (Hg & _ & c & Hc & Hgc & Hgi & _).
    unfold scan_completes. rewrite Hg, Hc, Hgc, Hgi. now destruct (collections c). }
  exists w', (scanned evs w). split; [assumption|]. split; [assumption|]. split.
  - intros u. simpl. rewrite reported_count_records. apply tally_sighted.
  - intros u. rewrite Hi, reported_count_records, tally_sighted.
    rewrite sighted_replaced by assumption. now rewrite map_map.
Qed.

(** X16: a replacement leaves every other URL alone: on a ready host, for
    a URL that is neither selected nor the replacement, the rescan reports
    the count a scan of the project before the replacement reports. *)
Theorem replace_keeps_other_counts (w : World) (u : string) :
  host_ready (framer w) ->
  newUrl w <> "" ->
  targets_of (selected w) <> [] ->
  ~ In u (targets_of (selected w)) ->
  u <> newUrl w ->
  exists w' w0,
    replace w = Returned tt w' /\ scan w = Returned tt w0 /\
    reported_count u (images w') = reported_count u (images w0).
Proof.
  intros Hr Hn Ht Hu Hne.
  destruct (replace_and_scan_before w Hr Hn Ht) as (w' & w0 & H1 & H2 & H3 & H4).
  exists w', w0. split; [assumption|]. split; [assumption|].
  rewrite H3, H4. f_equal. apply map_ext. intros v. now apply occ_rewrite_other.
Qed.

Lemma replace_keeps_other_counts_witness :
  (host_ready (framer world_selected) /\ newUrl world_selected <> "" /\
   targets_of (selected world_selected) <> [] /\
   ~ In url_b (targets_of (selected world_selected)) /\
   url_b <> newUrl world_selected) /\
  exists w' w0,
    replace world_selected = Returned tt w' /\ scan world_selected = Returned tt w0 /\
    reported_count url_b (images w') = reported_count url_b (images w0).
Proof.
  assert (H1 : host_ready (framer world_selected)) by exact sample_host_ready.
  assert (H2 : newUrl world_selected <> "") by discriminate.
  assert (H3 : targets_of (selected world_selected) <> []) by discriminate.
  assert (H4 : ~ In url_b (targets_of (selected world_selected))).
  { intros [H|[]]. discriminate H. }
  assert (H5 : url_b <> newUrl world_selected) by discriminate.
  split; [exact (conj H1 (conj H2 (conj H3 (conj H4 H5))))|].
  exact (replace_keeps_other_counts world_selected url_b H1 H2 H3 H4 H5).
Defined.

(** X17: a replacement moves counts, it does not lose them: in a reachable
    state on a ready host, when the replacement URL contains the host
    substring and is not itself selected, the rescan reports for it its
    count before the replacement plus the counts before of all the
    selected URLs. *)
Theorem replace_sums_counts (w : World) :
  reachable w ->
  host_ready (framer w) ->
  targets_of (selected w) <> [] ->
  includes (newUrl w) HOST = true ->
  ~ In (newUrl w) (targets_of (selected w)) ->
  exists w' w0,
    replace w = Returned tt w' /\ scan w = Returned tt w0 /\
    reported_count (newUrl w) (images w')
    = reported_count (newUrl w) (images w0)
      + sum_list (map (fun t => reported_count t (images w0))
                    (targets_of (selected w))).
Proof.
  intros Hreach Hr Ht Hq Hnin.
  assert (Hn : newUrl w <> "") by (intros He; rewrite He in Hq; discriminate Hq).
  destruct (replace_and_scan_before w Hr Hn Ht) as (w' & w0 & H1 & H2 & H3 & H4).
  exists w', w0. split; [assumption|]. split; [assumption|].
  destruct (reachable_ui_ok w Hreach) as (Hnd & Hsub & Hh).
  assert (HndT : NoDup (targets_of (selected w))) by now apply NoDup_filter.
  assert (HqT : forall t, In t (targets_of (selected w)) -> includes t HOST = true).
  { intros t Hin. apply targets_of_iff, selected_get_true_key in Hin. auto. }
  rewrite H4, H3.
  erewrite (map_ext (fun t => reported_count t (images w0))) by (intros; apply H3).
  rewrite <- sum_list_swap, <- sum_list_map_add. f_equal.
  apply map_ext. intros v. now apply occ_rewrite_new.
Qed.

Lemma replace_sums_counts_witness :
  (reachable world_ui_merge /\ host_ready (framer world_ui_merge) /\
   targets_of (selected world_ui_merge) = [url_a] /\
   includes (newUrl world_ui_merge) HOST = true /\
   ~ In (newUrl world_ui_merge) (targets_of (selected world_ui_merge))) /\
  exists w' w0,
    replace world_ui_merge = Returned tt w' /\ scan world_ui_merge = Returned tt w0 /\
    reported_count (newUrl world_ui_merge) (images w')
    = reported_count (newUrl world_ui_merge) (images w0)
      + sum_list (map (fun t => reported_count t (images w0))
                    (targets_of (selected world_ui_merge))).
Proof.
  assert (H1 : reachable world_ui_merge).
  { apply reach_step; [|exact I].
    apply reach_step; [|vm_compute; left; reflexivity].
    apply reach_step; [|exact I]. apply reach_mounted. }
  assert (H2 : host_ready (framer world_ui_merge)) by exact sample_host_ready.
  assert (H3 : targets_of (selected world_ui_merge) = [url_a]) by reflexivity.
  assert (H4 : includes (newUrl world_ui_merge) HOST = true) by reflexivity.
  assert (H5 : ~ In (newUrl world_ui_merge) (targets_of (selected world_ui_merge))).
  { intros [H|[]]. discriminate H. }
  split; [exact (conj H1 (conj H2 (conj H3 (conj H4 H5))))|].
  apply (replace_sums_counts world_ui_merge H1 H2); [discriminate | exact H4 | exact H5].
Defined.

(** ** The calls of the collection loop *)

Lemma flat_map_rev_short {A B} (f : A -> list B) l :
  (forall x, length (f x) <= 1) -> flat_map f (rev l) = rev (flat_map f l).
Proof.
  intros Hf. induction l as [|x l IH]; [reflexivity|]. simpl.
  rewrite flat_map_app, IH, rev_app_distr. simpl. rewrite app_nil_r. f_equal.
  specialize (Hf x). destruct (f x) as [|a [|b r]]; simpl in *; try reflexivity; lia.
Qed.

Lemma patch_payloads_app cid iid l1 l2 :
  patch_payloads cid iid (l1 ++ l2)
  = patch_payloads cid iid l1 ++ patch_payloads cid iid l2.
Proof. unfold patch_payloads. apply flat_map_app. Qed.

Lemma patch_payloads_rev cid iid l :
  patch_payloads cid iid (rev l) = rev (patch_payloads cid iid l).
Proof.
  unfold patch_payloads. apply flat_map_rev_short.
  intros []; simpl; try lia. destruct (_ && _); simpl; lia.
Qed.

Lemma patch_payloads_none cid iid evs :
  Forall (fun c => ~ is_patchItem c) evs -> patch_payloads cid iid evs = [].
Proof.
  induction 1 as [|c evs Hc _ IH]; [reflexivity|].
  change (c :: evs) with ([c] ++ evs). rewrite patch_payloads_app, IH.
  destruct c; simpl in *; try reflexivity. tauto.
Qed.

(** The item loop again, now with the calls it logs. *)
Lemma replace_items_run targets new cid todo :
  forall done w c pre post,
    cms (framer w) = Some c ->
    patchItem c = Working ->
    collections c = pre ++ mkCollection cid (done ++ todo) :: post ->
    ~ In cid (map col_id pre) -> ~ In cid (map col_id post) ->
    NoDup (map item_id (done ++ todo)) ->
    for_of todo (replace_item targets new cid) tt w
    = Returned tt
        (add_calls (rev (flat_map (item_call targets new cid) todo))
           (with_framer
              (with_cms
                 (with_collections
                    (pre ++ mkCollection cid
                              (done ++ map (new_item targets new) todo) :: post)
                    c)
                 (framer w))
              w)).
Proof.
  induction todo as [|it todo IH]; intros done w c pre post Hc Hp Hcs Hpre Hpost Hnd.
  - simpl. unfold ret. f_equal.
    destruct w as [[gn cv cm] nt im nu sel cs]. destruct c as [g1 g2 g3 cols].
    simpl in *. subst. reflexivity.
  - cbn [for_of flat_map map]. unfold bind at 1. unfold replace_item at 1.
    unfold item_call at 1.
    assert (Hnd' : NoDup (map item_id ((done ++ [new_item targets new it]) ++ todo))).
    { rewrite <- app_assoc. simpl. rewrite map_app in *. simpl in *.
      now rewrite new_item_id. }
    destruct (snd (replace_fields targets new (default [] (fields it)))) eqn:Hch.
    + unfold call_patchItem, bind at 1, cms_namespace. rewrite Hc, Hp.
      unfold bind at 1, log at 1.
      rewrite (host_patchItem_middle c cid pre post done it todo) by assumption.
      set (c1 := with_collections _ c). set (w1 := with_framer _ _).
      rewrite (IH (done ++ [new_item targets new it]) w1 c1 pre post);
        try assumption; try reflexivity.
      2:{ unfold c1, new_item. simpl. rewrite Hch. now rewrite <- app_assoc. }
      f_equal. unfold w1, c1, new_item. rewrite Hch.
      destruct w as [[gn cv cm] nt im nu sel cs]. destruct c as [g1 g2 g3 cols].
      simpl in *. unfold add_calls, with_framer, with_cms, with_collections. simpl.
      apply world_eq; [|now rewrite <- app_assoc].
      now rewrite <- app_assoc.
    + unfold ret at 1.
      rewrite (IH (done ++ [new_item targets new it]) w c pre post); try assumption.
      2:{ unfold new_item. rewrite Hch, Hcs. now rewrite <- app_assoc. }
      simpl. do 6 f_equal. unfold new_item. rewrite Hch.
      now rewrite <- app_assoc.
Qed.

(** The collection loop again, now with the calls it logs. *)
Lemma replace_collections_run targets new todo :
  forall pre w c,
    cms (framer w) = Some c ->
    getItems c = Working -> patchItem c = Working ->
    collections c = pre ++ todo ->
    NoDup (map col_id (pre ++ todo)) ->
    Forall (fun col => NoDup (map item_id (items col))) todo ->
    for_of todo (replace_collection targets new) tt w
    = Returned tt
        (add_calls (rev (flat_map (collection_calls targets new) todo))
           (with_framer
              (with_cms
                 (with_collections
                    (pre ++ map (new_collection targets new) todo) c)
                 (framer w))
              w)).
Proof.
  induction todo as [|col todo IH]; intros pre w c Hc Hg Hp Hcs Hnd Hit.
  - simpl. unfold ret. f_equal.
    destruct w as [[gn cv cm] nt im nu sel cs]. destruct c as [g1 g2 g3 cols].
    simpl in *. subst. reflexivity.
  - apply Forall_cons in Hit as [Hcol Hit].
    assert (Hsplit := Hnd). rewrite map_app in Hsplit. simpl in Hsplit.
    apply NoDup_app in Hsplit as (_ & Hd & Ht). apply NoDup_cons in Ht as [Hpost _].
    assert (Hpre : ~ In (col_id col) (map col_id pre)).
    { intros Hin. apply (Hd (col_id col)); [now apply list_elem_of_In | left]. }
    assert (Hpost' : ~ In (col_id col) (map col_id todo)).
    { intros Hin. apply Hpost. now apply list_elem_of_In. }
    cbn [for_of flat_map map]. unfold bind at 1. unfold replace_collection at 1.
    unfold bind at 1. unfold call_getItems, bind at 1, cms_namespace.
    rewrite Hc, Hg. unfold bind at 1, log at 1, ret at 1.
    rewrite (host_getItems_own c pre col todo Hcs Hpre).
    rewrite (replace_items_run targets new (col_id col) (items col) []
               (with_call (CallGetItems (col_id col)) w) c pre todo);
      try assumption.
    2:{ rewrite Hcs. destruct col; reflexivity. }
    set (c1 := with_collections _ c). set (w1 := add_calls _ _).
    rewrite (IH (pre ++ [new_collection targets new col]) w1 c1);
      try assumption; try reflexivity.
    2:{ unfold c1, new_collection. simpl. now rewrite <- app_assoc. }
    2:{ rewrite <- app_assoc. simpl. rewrite map_app in *. exact Hnd. }
    f_equal. unfold w1, c1, new_collection, collection_calls.
    destruct w as [[gn cv cm] nt im nu sel cs]. destruct c as [g1 g2 g3 cols].
    simpl in *. unfold add_calls, with_framer, with_cms, with_collections. simpl.
    apply world_eq; [now rewrite <- app_assoc|].
    rewrite rev_app_distr. simpl. now rewrite <- !app_assoc.
Qed.

Lemma patch_payloads_item_other targets new cid cid' iid it :
  cid' <> cid \/ item_id it <> iid ->
  patch_payloads cid iid (item_call targets new cid' it) = [].
Proof.
  intros H. unfold item_call. destruct (snd _); [|reflexivity]. simpl.
  destruct (String.eqb_spec cid' cid), (String.eqb_spec (item_id it) iid);
    simpl; try reflexivity. destruct H; contradiction.
Qed.

Lemma patch_payloads_items_other targets new cid cid' iid its :
  cid' <> cid \/ ~ In iid (map item_id its) ->
  patch_payloads cid iid (flat_map (item_call targets new cid') its) = [].
Proof.
  intros H. induction its as [|it its IH]; [reflexivity|]. simpl.
  rewrite patch_payloads_app, IH, patch_payloads_item_other; [reflexivity| |].
  - destruct H as [H|H]; [now left | right]. simpl in H. tauto.
  - destruct H as [H|H]; [now left | right]. simpl in H. tauto.
Qed.

Lemma patch_payloads_items targets new cid its it :
  NoDup (map item_id its) -> In it its ->
  patch_payloads cid (item_id it) (flat_map (item_call targets new cid) its)
  = patch_payloads cid (item_id it) (item_call targets new cid it).
Proof.
  intros Hnd Hin. apply list_elem_of_In, list_elem_of_split in Hin as (l1 & l2 & ->).
  rewrite map_app in Hnd. simpl in Hnd.
  apply NoDup_app in Hnd as (_ & Hd & Ht). apply NoDup_cons in Ht as [Hi _].
  rewrite flat_map_app. simpl. rewrite !patch_payloads_app.
  rewrite (patch_payloads_items_other targets new cid cid (item_id it) l1).
  - rewrite (patch_payloads_items_other targets new cid cid (item_id it) l2).
    + now rewrite app_nil_r.
    + right. intros H. apply Hi. now apply list_elem_of_In.
  - right. intros H. apply (Hd (item_id it)); [now apply list_elem_of_In | left].
Qed.

Lemma patch_payloads_collection_other targets new cid iid col :
  col_id col <> cid ->
  patch_payloads cid iid (collection_calls targets new col) = [].
Proof.
  intros H. unfold collection_calls.
  change (CallGetItems (col_id col) :: ?l) with ([CallGetItems (col_id col)] ++ l).
  rewrite patch_payloads_app. simpl.
  apply patch_payloads_items_other. now left.
Qed.

Lemma patch_payloads_collections_other targets new cid iid cols :
  ~ In cid (map col_id cols) ->
  patch_payloads cid iid (flat_map (collection_calls targets new) cols) = [].
Proof.
  intros H. induction cols as [|col cols IH]; [reflexivity|].
  cbn [flat_map]. rewrite patch_payloads_app, IH, patch_payloads_collection_other.
  - reflexivity.
  - intros He. apply H. now left.
  - intros Hin. apply H. now right.
Qed.

Lemma patch_payloads_collections targets new cols col it :
  NoDup (map col_id cols) -> In col cols ->
  NoDup (map item_id (items col)) -> In it (items col) ->
  patch_payloads (col_id col) (item_id it)
    (flat_map (collection_calls targets new) cols)
  = patch_payloads (col_id col) (item_id it)
      (item_call targets new (col_id col) it).
Proof.
  intros Hnd Hin Hndi Hini.
  apply list_elem_of_In, list_elem_of_split in Hin as (l1 & l2 & ->).
  rewrite map_app in Hnd. simpl in Hnd.
  apply NoDup_app in Hnd as (_ & Hd & Ht). apply NoDup_cons in Ht as [Hi _].
  rewrite flat_map_app. cbn [flat_map]. rewrite !patch_payloads_app.
  rewrite (patch_payloads_collections_other targets new (col_id col) (item_id it) l1).
  2:{ intros H. apply (Hd (col_id col)); [now apply list_elem_of_In | left]. }
  rewrite (patch_payloads_collections_other targets new (col_id col) (item_id it) l2).
  2:{ intros H. apply Hi. now apply list_elem_of_In. }
  rewrite app_nil_r. simpl. now apply patch_payloads_items.
Qed.

Lemma logs_only_replace_nodes P targets new hs :
  (forall i p, P (CallSetProps i p)) ->
  logs_only P (for_of hs (replace_node targets new) tt).
Proof.
  intros Hp. apply logs_only_for_of. intros h []. unfold replace_node.
  destruct (is_target _ _); [|apply logs_only_ret].
  unfold call_setProps. destruct (setProps (snd h)).
  - apply logs_only_ret.
  - apply logs_only_bind; [apply logs_only_log, Hp | intros; apply logs_only_throw].
  - apply logs_only_bind; [apply logs_only_log, Hp|].
    intros _. apply logs_only_quiet. reflexivity.
Qed.

(** The whole log of a replacement on a ready host. *)
Lemma replace_trace w :
  host_ready (framer w) -> newUrl w <> "" -> targets_of (selected w) <> [] ->
  exists w' c e_scan e_nodes,
    replace w = Returned tt w' /\ cms (framer w) = Some c /\
    Forall is_enumeration e_scan /\
    Forall (fun c => ~ is_patchItem c) e_nodes /\
    calls w'
    = e_scan
      ++ rev (flat_map (collection_calls (targets_of (selected w)) (newUrl w))
                (collections c))
      ++ CallGetCollections :: e_nodes ++ CallGetNodes :: calls w.
Proof.
  intros Hr Hn Ht. rewrite replace_run by assumption.
  destruct Hr as (Hg & Hs & c & Hc & Hgc & Hgi & Hp & Hnd & Hcr).
  set (T := targets_of (selected w)). set (new := newUrl w).
  unfold replace_updates. rewrite bind_assoc. unfold bind at 1.
  unfold call_getNodes. rewrite Hg. rewrite bind_assoc. unfold bind at 1.
  unfold host_getNodes.
  destruct (replace_nodes_store T new (canvas (framer w)) [] 0
              (with_call CallGetNodes w)) as (e1 & He1);
    [reflexivity | reflexivity | assumption |].
  change (imap (fun j => pair (0 + j)) (canvas (framer w)))
    with (imap pair (canvas (framer w))) in He1.
  assert (Hl : Forall (fun c => ~ is_patchItem c) e1).
  { destruct (logs_only_replace_nodes (fun c => ~ is_patchItem c) T new
                (imap pair (canvas (framer w))) (fun _ _ H => H)
                (with_call CallGetNodes w)) as (e1' & He1' & Hc1).
    rewrite He1 in Hc1. simpl in Hc1. apply app_inv_tail in Hc1. now subst. }
  rewrite He1. clear He1. set (w1 := add_calls e1 _).
  rewrite bind_assoc. unfold bind at 1.
  unfold call_getCollections, bind at 1, cms_namespace.
  change (cms (framer w1)) with (cms (framer w)). rewrite Hc, Hgc.
  unfold bind at 1, log at 1, ret at 1, host_getCollections.
  unfold bind at 1.
  rewrite (replace_collections_run T new (collections c) []
             (with_call CallGetCollections w1) c); try assumption; try reflexivity.
  2:{ eapply Forall_impl; [exact Hcr|]. now intros col [H _]. }
  set (w2 := add_calls _ _). unfold bind at 1.
  destruct (scan_completes_returns w2) as (e2 & He2 & ->).
  { unfold w2, w1. simpl. unfold scan_completes. simpl.
    rewrite Hg, Hgc, Hgi. now destruct (map _ (collections c)). }
  exists (with_newUrl "" (scanned e2 w2)), c, e2, e1.
  split; [reflexivity|]. split; [reflexivity|]. split; [assumption|].
  split; [assumption|].
  unfold w2, w1. simpl. repeat (rewrite <- app_assoc; simpl). reflexivity.
Qed.

(** X18: on a ready host a replacement issues, for each item, exactly one
    [patchItem] call when a field of the item holds a selected URL, and
    none otherwise; the call carries the complete field mapping, every key
    in place, with the selected values replaced and the others as they
    were. *)
Theorem replace_patches_changed_items (w : World) :
  host_ready (framer w) ->
  newUrl w <> "" ->
  targets_of (selected w) <> [] ->
  exists w' evs,
    replace w = Returned tt w' /\
    calls w' = evs ++ calls w /\
    forall c j col k it,
      cms (framer w) = Some c ->
      collections c !! j = Some col -> items col !! k = Some it ->
      patch_payloads (col_id col) (item_id it) evs
      = if existsb (is_target (targets_of (selected w)))
             (values (default [] (fields it)))
        then [map (fun kv => (fst kv,
                              rewrite_value (targets_of (selected w)) (newUrl w)
                                (snd kv)))
                (default [] (fields it))]
        else [].
Proof.
  intros Hr Hn Ht.
  destruct (replace_trace w Hr Hn Ht) as (w' & c & e2 & e1 & Hw & Hc & He2 & He1 & Hcalls).
  exists w',
    (e2 ++ rev (flat_map (collection_calls (targets_of (selected w)) (newUrl w))
                  (collections c))
        ++ [CallGetCollections] ++ e1 ++ [CallGetNodes]).
  split; [exact Hw|]. split.
  { rewrite Hcalls. repeat (rewrite <- app_assoc; simpl). reflexivity. }
  intros c' j col k it Hc' Hj Hk.
  assert (c' = c) by congruence. subst c'.
  destruct Hr as (_ & _ & c0 & Hc0 & Hcr). assert (c0 = c) by congruence. subst c0.
  assert (Hready := item_ready_lookup c j col k it Hcr Hj Hk).
  destruct Hcr as (_ & _ & _ & Hnd & Hall).
  assert (Hcol : In col (collections c)).
  { apply list_elem_of_In. eapply list_elem_of_lookup_2; eauto. }
  assert (Hit : In it (items col)).
  { apply list_elem_of_In. eapply list_elem_of_lookup_2; eauto. }
  assert (Hndi : NoDup (map item_id (items col))).
  { rewrite Forall_forall in Hall. apply list_elem_of_In in Hcol.
    now destruct (Hall col Hcol). }
  rewrite !patch_payloads_app.
  rewrite (patch_payloads_none _ _ e2)
    by (eapply Forall_impl; [exact He2 | intros []; simpl; tauto]).
  rewrite (patch_payloads_none _ _ e1) by assumption.
  simpl. rewrite app_nil_r, patch_payloads_rev.
  rewrite (patch_payloads_collections _ _ (collections c) col it) by assumption.
  unfold item_call. rewrite replace_fields_map by assumption. simpl.
  destruct (existsb _ _); [|reflexivity].
  simpl. now rewrite !String.eqb_refl.
Qed.

Lemma replace_patches_changed_items_witness :
  (host_ready (framer world_selected) /\ newUrl world_selected <> "" /\
   targets_of (selected world_selected) <> []) /\
  exists w' evs,
    replace world_selected = Returned tt w' /\
    calls w' = evs ++ calls world_selected /\
    forall c j col k it,
      cms (framer world_selected) = Some c ->
      collections c !! j = Some col -> items col !! k = Some it ->
      patch_payloads (col_id col) (item_id it) evs
      = if existsb (is_target (targets_of (selected world_selected)))
             (values (default [] (fields it)))
        then [map (fun kv => (fst kv,
                              rewrite_value (targets_of (selected world_selected))
                                (newUrl world_selected) (snd kv)))
                (default [] (fields it))]
        else [].
Proof.
  assert (H1 : host_ready (framer world_selected)) by exact sample_host_ready.
  assert (H2 : newUrl world_selected <> "") by discriminate.
  assert (H3 : targets_of (selected world_selected) <> []) by discriminate.
  split; [exact (conj H1 (conj H2 H3))|].
  exact (replace_patches_changed_items world_selected H1 H2 H3).
Defined.

(** ** A replacement that fails part-way *)

Lemma for_of_app {A S} (body : A -> S -> M S) l1 l2 s w :
  for_of (l1 ++ l2) body s w = bind (for_of l1 body s) (for_of l2 body) w.
Proof.
  revert s w. induction l1 as [|x l1 IH]; intros s w; simpl; [reflexivity|].
  rewrite bind_assoc. unfold bind at 1 2.
  destruct (body x s w) as [s' w'|w']; [|reflexivity].
  rewrite IH. reflexivity.
Qed.

(** The node loop over a stretch of the canvas whose [setProps] all work:
    the stretch is rewritten, what lies before and after is left. *)
Lemma replace_nodes_stretch targets new l :
  forall pre post k w,
    k = length pre ->
    canvas (framer w) = pre ++ l ++ post ->
    Forall (fun n => setProps n = Working) l ->
    exists evs,
      for_of (imap (fun j => pair (k + j)) l) (replace_node targets new) tt w
      = Returned tt
          (add_calls evs
             (with_framer
                (with_canvas (pre ++ map (new_node targets new) l ++ post)
                   (framer w)) w)).
Proof.
  induction l as [|n l IH]; intros pre post k w Hk Hc Hw.
  - exists []. cbn [imap for_of map]. unfold ret. f_equal.
    destruct w as [[gn cv cm] nt im nu sel cs]. simpl in *. subst cv. reflexivity.
  - apply Forall_cons in Hw as [Hn Hl].
    change (imap (fun j => pair (k + j)) (n :: l))
      with ((k + 0, n) :: imap ((fun j => pair (k + j)) ∘ S) l).
    rewrite imap_shift. cbn [for_of map]. unfold bind at 1.
    unfold replace_node at 1. cbn [fst snd].
    assert (Hk' : S k = length (pre ++ [new_node targets new n]))
      by (rewrite length_app; simpl; lia).
    destruct (is_target targets (node_url n)) eqn:Ht.
    + unfold call_setProps. cbn [fst snd]. rewrite Hn. unfold bind at 1, log at 1.
      set (w1 := with_framer _ _).
      destruct (IH (pre ++ [new_node targets new n]) post (S k) w1 Hk') as (evs & ->);
        [|assumption|].
      { unfold w1, host_setProps, new_node. simpl. rewrite Hc, Ht, Hk, alter_app_r.
        simpl. now rewrite <- app_assoc. }
      exists (evs ++ [CallSetProps (k + 0) (both_slots new)]). f_equal.
      unfold w1.
      destruct w as [[gn cv cm] nt im nu sel cs]. simpl in *.
      unfold add_calls, with_framer, with_canvas, host_setProps. simpl.
      apply world_eq; [|now rewrite <- app_assoc].
      f_equal. now rewrite <- app_assoc.
    + unfold ret at 1.
      destruct (IH (pre ++ [new_node targets new n]) post (S k) w Hk') as (evs & ->);
        [|assumption|].
      { unfold new_node. rewrite Ht, Hc. now rewrite <- app_assoc. }
      exists evs. do 4 f_equal. now rewrite <- app_assoc.
Qed.

Lemma replace_thrown_at_node w pre n post :
  getNodes (framer w) = Working ->
  newUrl w <> "" ->
  canvas (framer w) = pre ++ n :: post ->
  Forall (fun m => setProps m = Working) pre ->
  is_target (targets_of (selected w)) (node_url n) = true ->
  setProps n = Broken ->
  exists w',
    replace w = Thrown w' /\
    canvas (framer w')
    = map (new_node (targets_of (selected w)) (newUrl w)) pre ++ n :: post /\
    cms (framer w') = cms (framer w).
Proof.
  intros Hg Hnew Hc Hpre Ht Hs.
  rewrite replace_run by (try assumption; eapply is_target_nonempty; eauto).
  set (T := targets_of (selected w)) in *. set (new := newUrl w) in *.
  unfold replace_updates. rewrite bind_assoc. unfold bind at 1.
  unfold call_getNodes. rewrite Hg. rewrite bind_assoc. unfold bind at 1.
  unfold host_getNodes. rewrite Hc, imap_app. rewrite for_of_app. unfold bind at 1.
  destruct (replace_nodes_stretch T new pre [] (n :: post) 0
              (with_call CallGetNodes w)) as (e1 & He1);
    [reflexivity | exact Hc | assumption |].
  change (imap (fun j => pair (0 + j)) pre) with (imap pair pre) in He1.
  rewrite He1. clear He1. cbn [imap for_of]. unfold bind at 1.
  unfold replace_node at 1. cbn [fst snd]. rewrite Ht.
  unfold call_setProps. cbn [fst snd]. rewrite Hs.
  unfold bind at 1, log at 1, throw.
  eexists. split; [reflexivity|]. simpl. split; reflexivity.
Qed.

(** X19: nothing is rolled back.  When the [setProps] of a selected node
    throws, [replace] throws with it: the selected nodes before it are
    already rewritten and stay so, that node and all nodes after it are
    untouched, no item has been patched, no rescan has run and the three
    state cells are as they were. *)
Theorem replace_partial_failure (w : World) (pre : list Node) (n : Node)
    (post : list Node) :
  getNodes (framer w) = Working ->
  newUrl w <> "" ->
  canvas (framer w) = pre ++ n :: post ->
  Forall (fun m => setProps m = Working) pre ->
  is_target (targets_of (selected w)) (node_url n) = true ->
  setProps n = Broken ->
  exists w',
    replace w = Thrown w' /\
    canvas (framer w')
    = map (new_node (targets_of (selected w)) (newUrl w)) pre ++ n :: post /\
    cms (framer w') = cms (framer w) /\
    ui w' = ui w.
Proof.
  intros Hg Hnew Hc Hpre Ht Hs.
  destruct (replace_thrown_at_node w pre n post Hg Hnew Hc Hpre Ht Hs)
    as (w' & Hw & H1 & H2).
  exists w'. repeat split; try assumption. now apply replace_thrown_ui.
Qed.

Lemma replace_partial_failure_witness :
  (getNodes (framer world_broken_setProps) = Working /\
   newUrl world_broken_setProps <> "" /\
   canvas (framer world_broken_setProps)
   = [mkNode (Some [("image", VStr url_a)]) Working]
     ++ mkNode (Some [("src", VStr url_a)]) Broken
     :: [mkNode (Some [("image", VStr url_a)]) Working]) /\
  exists w',
    replace world_broken_setProps = Thrown w' /\
    canvas (framer w')
    = map (new_node (targets_of (selected world_broken_setProps))
             (newUrl world_broken_setProps))
        [mkNode (Some [("image", VStr url_a)]) Working]
      ++ mkNode (Some [("src", VStr url_a)]) Broken
      :: [mkNode (Some [("image", VStr url_a)]) Working] /\
    cms (framer w') = cms (framer world_broken_setProps) /\
    ui w' = ui world_broken_setProps.
Proof.
  split; [split; [reflexivity | split; [discriminate | reflexivity]]|].
  apply (replace_partial_failure world_broken_setProps);
    [reflexivity | discriminate | reflexivity | repeat constructor
    | reflexivity | reflexivity].
Defined.

(** ** The order of the rows *)

Lemma fold_scan_node_values k nodes us :
  fold_left scan_node (imap (fun j => pair (k + j)) nodes) us
  = fold_left scan_value (map node_url nodes) us.
Proof.
  revert k us. induction nodes as [|n nodes IH]; intros k us; [reflexivity|].
  simpl. rewrite imap_shift. apply IH.
Qed.

Lemma fold_scan_item_values its us :
  fold_left scan_item its us
  = fold_left scan_value
      (concat (map (fun it => values (default [] (fields it))) its)) us.
Proof.
  revert us. induction its as [|it its IH]; intros us; [reflexivity|].
  simpl. rewrite fold_left_app. apply IH.
Qed.

Lemma usages_of_sighted f : usages_of f = fold_left scan_value (sighted f) [].
Proof.
  unfold usages_of, sighted. rewrite fold_left_app, fold_scan_item_values.
  f_equal. apply (fold_scan_node_values 0).
Qed.

Lemma scan_value_keys vs us :
  map fst (fold_left scan_value vs us)
  = fold_left (fun acc u => if decide (u ∈ acc) then acc else acc ++ [u])
      (omap qualifies vs) (map fst us).
Proof.
  revert us. induction vs as [|v vs IH]; intros us; [reflexivity|].
  cbn [fold_left omap list_omap]. rewrite IH. unfold scan_value.
  destruct (qualifies v) as [u|]; [|reflexivity].
  cbn [fold_left]. unfold bump. now rewrite usages_set_keys.
Qed.

(** X20: the rows come in order of first sighting: the URLs of the records
    of a completed scan are the qualifying values the scan met (each
    node's resolved value in canvas order, then the field values item by
    item), each at the place of its first appearance. *)
Theorem scan_lists_in_order_of_first_sighting (w w' : World) :
  scan w = Returned tt w' ->
  map url (images w') = first_seen (omap qualifies (sighted (framer w))).
Proof.
  intros H. destruct (scan_returned w w' H) as (evs & _ & ->). simpl.
  rewrite records_urls, usages_of_sighted. apply (scan_value_keys _ []).
Qed.

Lemma scan_lists_in_order_of_first_sighting_witness :
  scan world_sample = Returned tt (world_of (scan world_sample)) /\
  map url (images (world_of (scan world_sample)))
  = first_seen (omap qualifies (sighted (framer world_sample))).
Proof.
  assert (H : scan world_sample = Returned tt (world_of (scan world_sample)))
    by (vm_compute; reflexivity).
  split; [exact H|]. exact (scan_lists_in_order_of_first_sighting world_sample _ H).
Defined.

(** ** The size shown on a row *)

(** X21: after a completed scan, the row of a URL whose HEAD response
    carried a non-empty [content-length] that does not start with an
    integer, or that parses to zero, shows the placeholder for its size,
    exactly as a row whose size is unknown: on screen a malformed header
    and a zero length cannot be told from a failed probe. *)
Theorem malformed_or_zero_length_shows_placeholder (w w' : World) (r : ImageUsage)
    (h : string) :
  scan w = Returned tt w' ->
  In r (images w') ->
  head (net w) (url r) = HeadOk (Some h) ->
  h <> "" ->
  parseInt h = NaN \/ parseInt h = Num 0 ->
  In (mkRow (url r) false (url r) (decimal (Z.of_nat (count r))) PLACEHOLDER)
     (render_rows w').
Proof.
  intros H Hr Hh Hne Hp. unfold render_rows. apply in_map_iff.
  exists r. split; [|assumption].
  destruct (scan_returned w w' H) as (evs & _ & ->). simpl in Hr.
  apply records_entry in Hr as [_ Hs].
  unfold render_row, checked. simpl. f_equal. rewrite Hs.
  unfold size_table. rewrite Hh.
  destruct (String.eqb_spec h "") as [->|_]; [contradiction|].
  destruct Hp as [->| ->]; reflexivity.
Qed.

Lemma malformed_or_zero_length_shows_placeholder_witness :
  (scan world_sample_malformed
   = Returned tt (world_of (scan world_sample_malformed)) /\
   In (mkImageUsage url_a 3 (Some NaN))
      (images (world_of (scan world_sample_malformed))) /\
   head (net world_sample_malformed) url_a = HeadOk (Some "abc") /\
   "abc" <> "" /\ parseInt "abc" = NaN) /\
  In (mkRow url_a false url_a (decimal 3) PLACEHOLDER)
     (render_rows (world_of (scan world_sample_malformed))).
Proof.
  assert (H1 : scan world_sample_malformed
               = Returned tt (world_of (scan world_sample_malformed)))
    by (vm_compute; reflexivity).
  assert (H2 : In (mkImageUsage url_a 3 (Some NaN))
                 (images (world_of (scan world_sample_malformed))))
    by (vm_compute; left; reflexivity).
  assert (H3 : head (net world_sample_malformed) url_a = HeadOk (Some "abc"))
    by reflexivity.
  assert (H4 : "abc" <> "") by discriminate.
  assert (H5 : parseInt "abc" = NaN) by reflexivity.
  split; [exact (conj H1 (conj H2 (conj H3 (conj H4 H5))))|].
  exact (malformed_or_zero_length_shows_placeholder world_sample_malformed _
           (mkImageUsage url_a 3 (Some NaN)) "abc" H1 H2 H3 H4 (or_introl H5)).
Defined.
